(** * NXGEN map overlay: data preprocessing and visibility engine

    A shallow embedding of the preprocessing and filtering code of the
    most recent revision of the overlay (helper functions [getProp],
    [getConnType], [getIERArray], [filterKey], the connection filter
    closures of [buildLayers], and the body of [preprocessData]).

    Conventions of the embedding.
    - Connection records are values of type [any] in the source, so they
      are JSON values ([JsVal]).
    - Point records are annotated [Feature] in the source
      ([GeoJSON.Feature<GeoJSON.Geometry, Properties>]) and are records.
    - A number read from the data files (a coordinate) is modelled by the
      rational that its decimal notation denotes ([Qc], canonical
      rationals, so that Leibniz equality is numeric equality); comparisons
      and differences of coordinates are exact.  The label offsets, which
      the engine computes itself, are binary64 floating-point numbers
      ([float]) and every operation on them rounds as in the source.
      Number-to-string conversion and the trigonometric functions are
      parameters of the development.
    - Strings are ASCII text: [trim] removes the ASCII white space and
      [toUpperCase] maps the letters a-z, other characters are left as
      they are.  Where a statement is about text of any kind (the calls
      [getConnType_call] and [getIERArray_call]), the two string methods
      of the platform are parameters that agree with [trim] and
      [toUpperCase] on ASCII text.
    - [getConnType] and [getIERArray] give the value the function returns
      when it returns; [getConnType_call] and [getIERArray_call] also
      record when the conversion to a string raises.
    - A [Set] is the list of its elements in insertion order; a [Map] that
      is iterated is an association list in insertion order; the point
      index, which is only queried, is a [gmap]. *)

From Stdlib Require Import PrimFloat.
From Stdlib Require Uint63 FloatOps SpecFloat.
From Stdlib Require Import QArith Qcanon Ascii String.
From stdpp Require Import base list strings gmap pretty sorting.

Set Warnings "-register-all".
Local Open Scope string_scope.
Local Open Scope list_scope.

(** ** JSON values *)

Inductive JsVal : Type :=
| JUndefined
| JNull
| JBool (b : bool)
| JNum (n : Qc)
| JStr (s : string)
| JArr (items : list JsVal)
| JObj (fields : list (string * JsVal)).

(** Own-property lookup in an object produced by [JSON.parse]; [fields]
    holds one entry per property. *)
Fixpoint assoc_get (fields : list (string * JsVal)) (key : string) : JsVal :=
  match fields with
  | [] => JUndefined
  | (k, v) :: rest => if String.eqb k key then v else assoc_get rest key
  end.

(** [d?.[key]] for the property names the engine reads (none of them is an
    array index, [length], or a member inherited from a prototype): only an
    object can hold such a property. *)
Definition opt_get (d : JsVal) (key : string) : JsVal :=
  match d with
  | JObj fields => assoc_get fields key
  | _ => JUndefined
  end.

Definition nullish (v : JsVal) : bool :=
  match v with
  | JUndefined | JNull => true
  | _ => false
  end.

(** [a ?? b] *)
Definition coalesce (a b : JsVal) : JsVal := if nullish a then b else a.

Infix "??" := coalesce (at level 45, left associativity).

(** ** String primitives *)

Definition is_space (c : ascii) : bool :=
  let n := nat_of_ascii c in
  ((9 <=? n)%nat && (n <=? 13)%nat) || (n =? 32)%nat.

Definition upper_char (c : ascii) : ascii :=
  let n := nat_of_ascii c in
  if ((97 <=? n)%nat && (n <=? 122)%nat) then ascii_of_nat (n - 32) else c.

Fixpoint toUpperCase (s : string) : string :=
  match s with
  | EmptyString => EmptyString
  | String c r => String (upper_char c) (toUpperCase r)
  end.

Fixpoint trimStart (s : string) : string :=
  match s with
  | EmptyString => EmptyString
  | String c r => if is_space c then trimStart r else s
  end.

Fixpoint trimEnd (s : string) : string :=
  match s with
  | EmptyString => EmptyString
  | String c r =>
      let r' := trimEnd r in
      if is_space c && String.eqb r' "" then "" else String c r'
  end.

Definition trim (s : string) : string := trimEnd (trimStart s).

(** [parts.join(sep)] on strings. *)
Fixpoint join (sep : string) (parts : list string) : string :=
  match parts with
  | [] => ""
  | [p] => p
  | p :: rest => p +:+ sep +:+ join sep rest
  end.

(** [[a, b].sort()]: the default comparison orders strings by code unit. *)
Definition sort2 (a b : string) : list string :=
  if String.ltb b a then [b; a] else [a; b].

(** [Array.from(set).sort()]: the default comparison orders strings by
    code unit; the order is total, so every sorting algorithm returns the
    same array. *)
Definition sort_strings (l : list string) : list string :=
  merge_sort String.le l.

(** ** Numbers *)

Definition num (z : Z) : Qc := Q2Qc (inject_Z z).
Definition decimal (digits : Z) (scale : positive) : Qc := Q2Qc (digits # scale).

(** [a < b] and [a <= b] on numbers. *)
Definition num_ltb (a b : Qc) : bool :=
  match (a ?= b)%Qc with Lt => true | _ => false end.
Definition num_leb (a b : Qc) : bool :=
  match (a ?= b)%Qc with Gt => false | _ => true end.
Definition num_abs (a : Qc) : Qc := if num_ltb a (num 0) then (- a)%Qc else a.

(** The double that a non-negative integer (an array length or index)
    is. *)
Definition float_of_nat (n : nat) : float :=
  PrimFloat.of_uint63 (Uint63.of_Z (Z.of_nat n)).

(** The rational that a finite double denotes. *)
Definition float_value (x : float) : option Q :=
  match FloatOps.Prim2SF x with
  | SpecFloat.S754_zero _ => Some 0%Q
  | SpecFloat.S754_finite s m e =>
      let z := if s then Zneg m else Zpos m in
      Some (if (0 <=? e)%Z then inject_Z (z * 2 ^ e)
            else (z # Pos.pow 2 (Z.to_pos (- e))))
  | _ => None
  end.

(** ** Pin groups *)

Inductive PointType : Type :=
| YELLOW_GROUP | PURPLE_GROUP | ORANGE_GROUP | GREEN_GROUP | RED_GROUP
| TURQUOISE_GROUP | VIOLET_GROUP | BLUE_GROUP | PINK_GROUP | WHITE_GROUP
| OKC_GROUP | MAGENTA_GROUP | GREY_GROUP.

#[global] Instance PointType_eq_dec : EqDecision PointType.
Proof. solve_decision. Defined.

(** The string a [PointType] value is at run time. *)
Definition PointType_name (t : PointType) : string :=
  match t with
  | YELLOW_GROUP => "YELLOW_GROUP" | PURPLE_GROUP => "PURPLE_GROUP"
  | ORANGE_GROUP => "ORANGE_GROUP" | GREEN_GROUP => "GREEN_GROUP"
  | RED_GROUP => "RED_GROUP" | TURQUOISE_GROUP => "TURQUOISE_GROUP"
  | VIOLET_GROUP => "VIOLET_GROUP" | BLUE_GROUP => "BLUE_GROUP"
  | PINK_GROUP => "PINK_GROUP" | WHITE_GROUP => "WHITE_GROUP"
  | OKC_GROUP => "OKC_GROUP" | MAGENTA_GROUP => "MAGENTA_GROUP"
  | GREY_GROUP => "GREY_GROUP"
  end.

Definition ALL_POINT_TYPES : list PointType :=
  [ RED_GROUP; TURQUOISE_GROUP; YELLOW_GROUP; GREEN_GROUP;
    PURPLE_GROUP; ORANGE_GROUP; BLUE_GROUP; VIOLET_GROUP;
    PINK_GROUP; WHITE_GROUP; MAGENTA_GROUP; OKC_GROUP; GREY_GROUP ].

Definition RGBA : Type := (nat * nat * nat * nat)%type.

Definition PIN_COLOR_MAP (t : PointType) : RGBA :=
  match t with
  | RED_GROUP => (200, 0, 0, 220)
  | TURQUOISE_GROUP => (64, 224, 208, 220)
  | YELLOW_GROUP => (255, 255, 0, 220)
  | GREEN_GROUP => (0, 128, 0, 220)
  | PURPLE_GROUP => (128, 0, 128, 220)
  | ORANGE_GROUP => (255, 165, 0, 220)
  | BLUE_GROUP => (0, 120, 255, 220)
  | VIOLET_GROUP => (130, 42, 245, 220)
  | PINK_GROUP => (255, 105, 180, 220)
  | WHITE_GROUP => (197, 110, 255, 255)
  | MAGENTA_GROUP => (255, 0, 255, 255)
  | GREY_GROUP => (169, 169, 169, 220)
  | OKC_GROUP => (0, 255, 255, 220)
  end.

(** Pin name to group mapping (own properties of the object literal). *)
Definition PIN_LOOKUP_MAP : list (string * PointType) :=
  [ ("sb", VIOLET_GROUP); ("Ship", VIOLET_GROUP);
    ("Point 13", YELLOW_GROUP); ("E6-1", YELLOW_GROUP); ("E6-2", YELLOW_GROUP);
    ("Point 6", YELLOW_GROUP); ("E6-3", YELLOW_GROUP); ("E6-4", YELLOW_GROUP);
    ("E6-5", YELLOW_GROUP); ("E6-6", YELLOW_GROUP); ("E6-7", YELLOW_GROUP);
    ("E6-8", YELLOW_GROUP);
    ("Support Team", PURPLE_GROUP); ("B", PURPLE_GROUP);
    ("Bale HFCGS", GREEN_GROUP); ("M", GREEN_GROUP); ("NE", GREEN_GROUP);
    ("FOB1", RED_GROUP); ("FOB2", RED_GROUP);
    ("PENT", TURQUOISE_GROUP); ("COS", TURQUOISE_GROUP); ("TB", TURQUOISE_GROUP);
    ("RR", TURQUOISE_GROUP); ("AZ", TURQUOISE_GROUP); ("IP", TURQUOISE_GROUP);
    ("SAN", PINK_GROUP); ("SBL", PINK_GROUP); ("LUL", PINK_GROUP);
    ("Site A", ORANGE_GROUP); ("Site B", ORANGE_GROUP); ("Site C", ORANGE_GROUP);
    ("Cutler", WHITE_GROUP); ("Grindavik", WHITE_GROUP); ("Awase", WHITE_GROUP);
    ("Harold E. Holt", WHITE_GROUP); ("Aguada", WHITE_GROUP);
    ("Wahiawa", WHITE_GROUP); ("Naples", WHITE_GROUP); ("Dixon", WHITE_GROUP);
    ("Jim Creek", WHITE_GROUP); ("La Moure", WHITE_GROUP); ("Norfolk", WHITE_GROUP);
    ("Yokosuka", WHITE_GROUP);
    ("H_AK", MAGENTA_GROUP); ("Beale HFCGS", MAGENTA_GROUP); ("E", MAGENTA_GROUP);
    ("LRT1", GREY_GROUP); ("LRT2", GREY_GROUP); ("LRT3", GREY_GROUP);
    ("MOB", OKC_GROUP) ].

Fixpoint table_get {A : Type} (table : list (string * A)) (key : string) : option A :=
  match table with
  | [] => None
  | (k, v) :: rest => if String.eqb k key then Some v else table_get rest key
  end.

(** ** Point records

    [Feature = GeoJSON.Feature<GeoJSON.Geometry, Properties>]: the engine
    reads [properties.name], [geometry.type] and [geometry.coordinates]
    (a [Position], that is a [number[]]). *)

Record Properties : Type := mkProperties { name : option string }.

Record Geometry : Type := mkGeometry {
  type : string;
  coordinates : list Qc
}.

(** [_pinType] and [_labelOffset] are the derived fields that
    [preprocessData] attaches to a point; they are absent after load. *)
Record Feature : Type := mkFeature {
  properties : Properties;
  geometry : Geometry;
  _pinType : option PointType;
  _labelOffset : option (float * float)
}.

(** ** Connection records after resolution

    [raw] is the spread [...c] of the source record; the remaining fields
    are the ones [preprocessData] writes.  [from] and [to] hold the point
    as it is when the connection is resolved. *)
Record Connection : Type := mkConnection {
  raw : JsVal;
  from : option Feature;
  to : option Feature;
  _sourcePos : option (list Qc);
  _targetPos : option (list Qc);
  _connType : string;
  _ierTypes : list string;
  _sourcePinType : PointType;
  _targetPinType : PointType;
  _isHub1 : bool;
  _isHub2 : bool
}.

(** ** Aggregated connections

    The accumulator stored in [aggregatedConnectionsMap]; [_connTypes] and
    [_ierTypes] are [Set]s there and become arrays by [Array.from], which
    leaves the insertion-ordered list unchanged. *)
Module Agg.
Record t : Type := mk {
  from : option Feature;
  to : option Feature;
  _sourcePos : option (list Qc);
  _targetPos : option (list Qc);
  _connTypes : list string;
  _ierTypes : list string;
  _count : nat;
  _sourcePinType : PointType;
  _targetPinType : PointType;
  _isHub1 : bool;
  _isHub2 : bool
}.
End Agg.

(** ** Co-located pins *)

Record PinGroup : Type := mkPinGroup {
  firstPin : option Feature;
  count : nat;
  pinTypes : list (option PointType);
  originalPins : list Feature;
  iconUrl : string
}.

(** ** Filter state (the module-level [let] variables) *)

Record FilterState : Type := mkFilterState {
  activeTypes : list string;
  activePointTypes : list PointType;
  activeIerTypes : list string;
  hideHubConnections : bool;
  hideHub2Connections : bool;
  showAggregatedConnections : bool;
  showConnectionLabels : bool;
  showPinLabels : bool
}.


Section Engine.

(** [Number.prototype.toString]. *)
Variable Number_toString : Qc -> string.

(** The string that [String(v)] returns when it returns; inside
    [Array.prototype.join] a nullish element prints as the empty string.
    The conversion can also raise: [String_call] below records when. *)
Fixpoint ToString (v : JsVal) : string :=
  match v with
  | JUndefined => "undefined"
  | JNull => "null"
  | JBool true => "true"
  | JBool false => "false"
  | JNum n => Number_toString n
  | JStr s => s
  | JArr items =>
      join "," (map (fun x => match x with
                              | JUndefined | JNull => ""
                              | _ => ToString x
                              end) items)
  | JObj _ => "[object Object]"
  end.

(** ** Helper functions *)

Definition getProp (d : JsVal) (key : string) : JsVal :=
  opt_get d key ?? opt_get (opt_get d "properties") key.

Definition getConnType (d : JsVal) : string :=
  let t := getProp d "Connection_type" ?? getProp d "connection_type" in
  let up := toUpperCase (trim (ToString (t ?? JStr ""))) in
  if String.eqb up "N_TYPE" then "N" else up.

Definition getIERArray (d : JsVal) : list string :=
  let ierValue := getProp d "IER" in
  match ierValue with
  | JArr items => map (fun item => toUpperCase (ToString (item ?? JStr ""))) items
  | _ => []
  end.

(** [getProp(d, "name") ?? ""] on a [Feature], whose name lives under
    [properties]. *)
Definition getPointName (d : Feature) : string :=
  default "" (name (properties d)).

(** The lookup is by the keys the table itself holds: a point named after
    a member that every object inherits ([constructor], [toString], ...)
    is outside this embedding, [PointType] having no value for what the
    source returns there. *)
Definition getPinType (d : Feature) : PointType :=
  let name := getPointName d in
  default BLUE_GROUP (table_get PIN_LOOKUP_MAP name).

Definition colorPinkByType (d : Feature) : RGBA := PIN_COLOR_MAP (getPinType d).

(** ** Hub proximity *)

Definition HUB_LNG : Qc := decimal (-82492696) 1000000.
Definition HUB_LAT : Qc := decimal 278602 10000.
Definition HUB_EPS : Qc := decimal 1 1000000.
Definition HUB2_LNG : Qc := decimal 9077841 1000000.
Definition HUB2_LAT : Qc := decimal 48734481 1000000.

(** [near(a, b)]; an array element that is missing is [undefined], and the
    comparison is then false. *)
Definition near (a : option Qc) (b : Qc) : bool :=
  match a with
  | Some a => num_leb (num_abs (a - b)%Qc) HUB_EPS
  | None => false
  end.

Definition touches (s t : option (list Qc)) (lng lat : Qc) : bool :=
  match s, t with
  | Some s, Some t =>
      (near (s !! 0%nat) lng && near (s !! 1%nat) lat) ||
      (near (t !! 0%nat) lng && near (t !! 1%nat) lat)
  | _, _ => false
  end.

(** [connectsToHub] and [connectsToHub2] on the two-field object that
    [preprocessData] passes to them. *)
Definition connectsToHub (_sourcePos _targetPos : option (list Qc)) : bool :=
  touches _sourcePos _targetPos HUB_LNG HUB_LAT.

Definition connectsToHub2 (_sourcePos _targetPos : option (list Qc)) : bool :=
  touches _sourcePos _targetPos HUB2_LNG HUB2_LAT.

(** ** Insertion-ordered [Map<string, V>] *)

Fixpoint map_has {V : Type} (m : list (string * V)) (key : string) : bool :=
  match m with
  | [] => false
  | (k, _) :: rest => String.eqb k key || map_has rest key
  end.

Fixpoint map_get {V : Type} (m : list (string * V)) (key : string) : option V :=
  match m with
  | [] => None
  | (k, v) :: rest => if String.eqb k key then Some v else map_get rest key
  end.

(** [m.set(key, v)] for a key that is not yet present. *)
Definition map_set_new {V : Type} (m : list (string * V)) (key : string) (v : V)
  : list (string * V) := m ++ [(key, v)].

(** In-place update of the value stored under [key]. *)
Fixpoint map_update {V : Type} (f : V -> V) (m : list (string * V)) (key : string)
  : list (string * V) :=
  match m with
  | [] => []
  | (k, v) :: rest =>
      if String.eqb k key then (k, f v) :: rest else (k, v) :: map_update f rest key
  end.

Definition map_values {V : Type} (m : list (string * V)) : list V := map snd m.

(** [set.add(x)] and [set.has(x)]. *)
Definition set_has (s : list string) (x : string) : bool :=
  existsb (String.eqb x) s.

Definition set_add (s : list string) (x : string) : list string :=
  if set_has s x then s else s ++ [x].

(** ** Point index *)

Definition indexPoint (pointMap : gmap string Feature) (p : Feature)
  : gmap string Feature :=
  let name := getPointName p in
  if String.eqb name "" then pointMap else <[name := p]> pointMap.

Definition HUB2_POINT : Feature :=
  mkFeature (mkProperties (Some "HUB2"))
            (mkGeometry "Point" [HUB2_LNG; HUB2_LAT]) None None.

Definition buildPointMap (allPoints : list Feature) : gmap string Feature :=
  <["HUB2" := HUB2_POINT]> (foldl indexPoint ∅ allPoints).

(** [pointMap.get(key)]: the keys of the index are strings, and [Map]
    compares without coercion. *)
Definition pointMap_get (pointMap : gmap string Feature) (key : JsVal)
  : option Feature :=
  match key with
  | JStr s => pointMap !! s
  | _ => None
  end.

(** [v === s] for a string literal [s]. *)
Definition strict_eq_string (v : JsVal) (s : string) : bool :=
  match v with
  | JStr x => String.eqb x s
  | _ => false
  end.

(** ** Connection resolver *)

(** The first [filter] callback of [preprocessData]. *)
Definition keepConnection (pointMap : gmap string Feature) (c : JsVal) : bool :=
  let connType := getConnType c in
  if String.eqb connType "TR" then
    let fromName := getProp c "from" in
    let toPoint := pointMap_get pointMap (getProp c "to") in
    let toLng :=
      match toPoint with
      | Some toPoint =>
          if String.eqb (type (geometry toPoint)) "Point"
          then coordinates (geometry toPoint) !! 0%nat
          else None
      | None => None
      end in
    match toLng with
    | None => true
    | Some toLng =>
        if strict_eq_string fromName "Ohio Pin" then num_ltb (num (-90)) toLng
        else if strict_eq_string fromName "FOB1" then num_ltb toLng (num (-90))
        else true
    end
  else true.

(** [p?.geometry?.type === 'Point' ? p.geometry.coordinates : undefined] *)
Definition pointPosition (p : option Feature) : option (list Qc) :=
  match p with
  | Some p =>
      if String.eqb (type (geometry p)) "Point"
      then Some (coordinates (geometry p))
      else None
  | None => None
  end.

(** [(p?.geometry as GeoJSON.Point)?.coordinates] *)
Definition pointCoordinates (p : option Feature) : option (list Qc) :=
  (fun p => coordinates (geometry p)) <$> p.

(** The [map] callback of [preprocessData]. *)
Definition resolveConnection (pointMap : gmap string Feature) (c : JsVal)
  : Connection :=
  let fromPoint := pointMap_get pointMap (getProp c "from") in
  let toPoint := pointMap_get pointMap (getProp c "to") in
  let sourcePinType :=
    match fromPoint with Some p => getPinType p | None => BLUE_GROUP end in
  let targetPinType :=
    match toPoint with Some p => getPinType p | None => BLUE_GROUP end in
  {| raw := c;
     from := fromPoint;
     to := toPoint;
     _sourcePos := pointPosition fromPoint;
     _targetPos := pointPosition toPoint;
     _connType := getConnType c;
     _ierTypes := getIERArray c;
     _sourcePinType := sourcePinType;
     _targetPinType := targetPinType;
     _isHub1 := connectsToHub (pointCoordinates fromPoint) (pointCoordinates toPoint);
     _isHub2 := connectsToHub2 (pointCoordinates fromPoint) (pointCoordinates toPoint) |}.

(** The last [filter] callback: [c._sourcePos && c._targetPos]; an array
    is truthy, [undefined] is not. *)
Definition hasPositions (c : Connection) : bool :=
  match _sourcePos c, _targetPos c with
  | Some _, Some _ => true
  | _, _ => false
  end.

Definition processConnections
  (pointMap : gmap string Feature) (connectionsJson : list JsVal)
  : list Connection :=
  List.filter hasPositions
    (map (resolveConnection pointMap)
       (List.filter (keepConnection pointMap) connectionsJson)).

(** ** Connection aggregator *)

(** [pos.join(',')]; on [undefined] the call raises a [TypeError] ([None]). *)
Definition posStr (pos : option (list Qc)) : option string :=
  (fun l => join "," (map Number_toString l)) <$> pos.

Definition connKey (conn : Connection) : option string :=
  pos1Str ← posStr (_sourcePos conn);
  pos2Str ← posStr (_targetPos conn);
  Some (join "|" (sort2 pos1Str pos2Str)).

Definition newAccumulator (conn : Connection) : Agg.t :=
  {| Agg.from := from conn;
     Agg.to := to conn;
     Agg._sourcePos := _sourcePos conn;
     Agg._targetPos := _targetPos conn;
     Agg._connTypes := [];
     Agg._ierTypes := [];
     Agg._count := 0;
     Agg._sourcePinType := _sourcePinType conn;
     Agg._targetPinType := _targetPinType conn;
     Agg._isHub1 := false;
     Agg._isHub2 := false |}.

Definition accumulate (conn : Connection) (aggregated : Agg.t) : Agg.t :=
  {| Agg.from := Agg.from aggregated;
     Agg.to := Agg.to aggregated;
     Agg._sourcePos := Agg._sourcePos aggregated;
     Agg._targetPos := Agg._targetPos aggregated;
     Agg._connTypes := set_add (Agg._connTypes aggregated) (_connType conn);
     Agg._ierTypes := foldl set_add (Agg._ierTypes aggregated) (_ierTypes conn);
     Agg._count := S (Agg._count aggregated);
     Agg._sourcePinType := Agg._sourcePinType aggregated;
     Agg._targetPinType := Agg._targetPinType aggregated;
     Agg._isHub1 := Agg._isHub1 aggregated || _isHub1 conn;
     Agg._isHub2 := Agg._isHub2 aggregated || _isHub2 conn |}.

(** The body of [processedConnections.forEach]. *)
Definition aggregateStep (m : list (string * Agg.t)) (conn : Connection)
  : option (list (string * Agg.t)) :=
  key ← connKey conn;
  let m1 := if map_has m key then m
            else map_set_new m key (newAccumulator conn) in
  Some (map_update (accumulate conn) m1 key).

Fixpoint forEachM {S A : Type} (f : S -> A -> option S) (s : S) (l : list A)
  : option S :=
  match l with
  | [] => Some s
  | x :: rest => s' ← f s x; forEachM f s' rest
  end.

Definition aggregatedConnectionsMap (processedConnections : list Connection)
  : option (list (string * Agg.t)) :=
  forEachM aggregateStep [] processedConnections.

Definition aggregateConnections (processedConnections : list Connection)
  : option (list Agg.t) :=
  map_values <$> aggregatedConnectionsMap processedConnections.

(** ** Co-location grouper *)

(** The SVG text of a pie icon; only the colour list it is built from
    matters here. *)
Variable createPieIcon : list RGBA -> string.

(** [Math.cos] and [Math.sin], whose results the language leaves to the
    implementation, and [Math.PI], the double nearest to pi. *)
Variables (Math_cos Math_sin : float -> float).

Definition Math_PI : float := 0x1.921fb54442d18p+1%float.

Definition attachPinType (p : Feature) : Feature :=
  {| properties := properties p;
     geometry := geometry p;
     _pinType := Some (getPinType p);
     _labelOffset := _labelOffset p |}.

(** [p.geometry.coordinates.join(',')] *)
Definition locationKey (p : Feature) : string :=
  join "," (map Number_toString (coordinates (geometry p))).

Definition addPinByLocation (m : list (string * list Feature)) (p : Feature)
  : list (string * list Feature) :=
  let coords := locationKey p in
  let m1 := if map_has m coords then m else map_set_new m coords [] in
  map_update (fun pins => pins ++ [p]) m1 coords.

Definition pinsByLocation (processedPins : list Feature)
  : list (string * list Feature) :=
  foldl addPinByLocation [] processedPins.

Definition makePinGroup (pins : list Feature) : PinGroup :=
  {| firstPin := head pins;
     count := length pins;
     pinTypes := map _pinType pins;
     originalPins := pins;
     iconUrl := createPieIcon (map colorPinkByType pins) |}.

(** [360 / numSlices] *)
Definition sliceAngleOf (numSlices : nat) : float :=
  (360 / float_of_nat numSlices)%float.

Definition offsetRadius : float := 45%float.

(** [-90 + (i * sliceAngle) + (sliceAngle / 2)] *)
Definition midAngle (numSlices i : nat) : float :=
  let sliceAngle := sliceAngleOf numSlices in
  (-90 + (float_of_nat i * sliceAngle) + (sliceAngle / 2))%float.

Definition labelOffsetAt (numSlices i : nat) : float * float :=
  let midAngleRad := (midAngle numSlices i * (Math_PI / 180))%float in
  let offsetX := (offsetRadius * Math_cos midAngleRad)%float in
  let offsetY := (offsetRadius * Math_sin midAngleRad)%float in
  (offsetX, offsetY).

Definition setLabelOffset (p : Feature) (offset : float * float) : Feature :=
  {| properties := properties p;
     geometry := geometry p;
     _pinType := _pinType p;
     _labelOffset := Some offset |}.

Definition assignLabelOffsets (pinGroup : PinGroup) : PinGroup :=
  if (1 <? count pinGroup)%nat then
    let numSlices := count pinGroup in
    {| firstPin := firstPin pinGroup;
       count := count pinGroup;
       pinTypes := pinTypes pinGroup;
       originalPins :=
         imap (fun i p => setLabelOffset p (labelOffsetAt numSlices i))
              (originalPins pinGroup);
       iconUrl := iconUrl pinGroup |}
  else pinGroup.

(** [overlappingPins] once the label offsets are assigned. *)
Definition overlappingPins (allPoints : list Feature) : list PinGroup :=
  map assignLabelOffsets
    (map makePinGroup (map_values (pinsByLocation (map attachPinType allPoints)))).

(** The final [processedPins]. *)
Definition processedPins (allPoints : list Feature) : list Feature :=
  flat_map originalPins (overlappingPins allPoints).

(** ** Visibility engine *)

Definition pinTypeActive (fs : FilterState) (t : PointType) : bool :=
  bool_decide (t ∈ activePointTypes fs).

Definition ierVisible (fs : FilterState) (ierTypes : list string) : bool :=
  (length (activeIerTypes fs) =? 0)%nat ||
  existsb (fun ierType => set_has (activeIerTypes fs) ierType) ierTypes.

Definition getConnectionFilterValue (fs : FilterState) (d : Connection) : nat :=
  let sourcePinTypeVisible := pinTypeActive fs (_sourcePinType d) in
  let targetPinTypeVisible := pinTypeActive fs (_targetPinType d) in
  if set_has (activeTypes fs) (_connType d) &&
     (negb (hideHubConnections fs) || negb (_isHub1 d)) &&
     (negb (hideHub2Connections fs) || negb (_isHub2 d)) &&
     sourcePinTypeVisible && targetPinTypeVisible && ierVisible fs (_ierTypes d)
  then 1 else 0.

(** [getFilterValue] of the aggregated-connections layer. *)
Definition getAggregatedFilterValue (fs : FilterState) (d : Agg.t) : nat :=
  let anyConnTypeActive :=
    existsb (fun type => set_has (activeTypes fs) type) (Agg._connTypes d) in
  let sourcePinTypeVisible := pinTypeActive fs (Agg._sourcePinType d) in
  let targetPinTypeVisible := pinTypeActive fs (Agg._targetPinType d) in
  if anyConnTypeActive &&
     (negb (hideHubConnections fs) || negb (Agg._isHub1 d)) &&
     (negb (hideHub2Connections fs) || negb (Agg._isHub2 d)) &&
     sourcePinTypeVisible && targetPinTypeVisible &&
     ierVisible fs (Agg._ierTypes d)
  then 1 else 0.

(** [`${b ? 1 : 0}`] *)
Definition flag (b : bool) : string := if b then "1" else "0".

Definition filterKey (fs : FilterState) : string :=
  join "|"
    [ join "," (sort_strings (activeTypes fs));
      "hub1:" +:+ flag (hideHubConnections fs);
      "hub2:" +:+ flag (hideHub2Connections fs);
      join "," (sort_strings (map PointType_name (activePointTypes fs)));
      join "," (sort_strings (activeIerTypes fs));
      "aggregated:" +:+ flag (showAggregatedConnections fs) ]
  +:+ "|connLabels:" +:+ flag (showConnectionLabels fs)
  +:+ "|pinLabels:" +:+ flag (showPinLabels fs).

(** [preprocessData] accepts a [FeatureCollection] or a plain array. *)
Inductive Data : Type :=
| FeatureCollection (features : list Feature)
| PlainArray (items : list Feature).

Definition allPointsOf (pointsJson : Data) : list Feature :=
  match pointsJson with
  | FeatureCollection features => features
  | PlainArray items => items
  end.

(** [processedConnections] as [preprocessData] leaves it. *)
Definition preprocessConnections (pointsJson : Data) (connectionsJson : list JsVal)
  : list Connection :=
  processConnections (buildPointMap (allPointsOf pointsJson)) connectionsJson.

(** The four arrays [preprocessData] assigns: [processedConnections],
    [processedPins], [overlappingPins] and [aggregatedConnections]; [None]
    when the aggregation pass raises. *)
Definition preprocessData (pointsJson : Data) (connectionsJson : list JsVal)
  : option (list Connection * list Feature * list PinGroup * list Agg.t) :=
  let allPoints := allPointsOf pointsJson in
  let conns := preprocessConnections pointsJson connectionsJson in
  aggregatedConnections ← aggregateConnections conns;
  Some (conns, processedPins allPoints, overlappingPins allPoints,
        aggregatedConnections).

(** ** Notions used to state the properties *)

(** The first candidate that is neither [null] nor [undefined]. *)
Definition first_defined (candidates : list JsVal) : option JsVal :=
  List.find (fun v => negb (nullish v)) candidates.

(** The type field of a record: the spelling [Connection_type] before
    [connection_type], each read directly and then under [properties]. *)
Definition typeField (d : JsVal) : option JsVal :=
  first_defined
    [ opt_get d "Connection_type";
      opt_get (opt_get d "properties") "Connection_type";
      opt_get d "connection_type";
      opt_get (opt_get d "properties") "connection_type" ].

(** The tag field of a record, read directly and then under [properties]. *)
Definition tagField (d : JsVal) : option JsVal :=
  first_defined [ opt_get d "IER"; opt_get (opt_get d "properties") "IER" ].

(** The longitude of the point a connection's [to] reference resolves to. *)
Definition targetLongitude (pointMap : gmap string Feature) (c : JsVal)
  : option Qc :=
  pointPosition (pointMap_get pointMap (getProp c "to")) ≫= (fun pos => pos !! 0%nat).

(** [fs'] enables at least the categories, groups and tags of [fs] and has
    the same hub-suppression flags. *)
Definition extends (fs fs' : FilterState) : Prop :=
  (∀ x, x ∈ activeTypes fs → x ∈ activeTypes fs') ∧
  (∀ x, x ∈ activePointTypes fs → x ∈ activePointTypes fs') ∧
  (∀ x, x ∈ activeIerTypes fs → x ∈ activeIerTypes fs') ∧
  hideHubConnections fs = hideHubConnections fs' ∧
  hideHub2Connections fs = hideHub2Connections fs'.

(** A key that [join(",")] keeps apart from its neighbours: it is not
    empty and holds no comma. *)
Fixpoint contains_char (c : ascii) (s : string) : bool :=
  match s with
  | EmptyString => false
  | String x r => Ascii.eqb x c || contains_char c r
  end.

Definition plain (s : string) : Prop := s ≠ "" ∧ contains_char "," s = false.

Definition plain_keys (fs : FilterState) : Prop :=
  Forall plain (activeTypes fs) ∧ Forall plain (activeIerTypes fs).

(** The same filter state, the sets possibly enumerated in another order. *)
Definition same_up_to_order (fs fs' : FilterState) : Prop :=
  activeTypes fs ≡ₚ activeTypes fs' ∧
  activePointTypes fs ≡ₚ activePointTypes fs' ∧
  activeIerTypes fs ≡ₚ activeIerTypes fs' ∧
  hideHubConnections fs = hideHubConnections fs' ∧
  hideHub2Connections fs = hideHub2Connections fs' ∧
  showAggregatedConnections fs = showAggregatedConnections fs' ∧
  showConnectionLabels fs = showConnectionLabels fs' ∧
  showPinLabels fs = showPinLabels fs'.

Definition same_elements {A : Type} (l l' : list A) : Prop := ∀ x, x ∈ l ↔ x ∈ l'.

(** Two filter states that differ in exactly one dimension. *)
Inductive single_change : FilterState → FilterState → Prop :=
| change_activeTypes t t' p i h1 h2 a cl pl :
    ¬ same_elements t t' →
    single_change (mkFilterState t p i h1 h2 a cl pl)
                  (mkFilterState t' p i h1 h2 a cl pl)
| change_activePointTypes t p p' i h1 h2 a cl pl :
    ¬ same_elements p p' →
    single_change (mkFilterState t p i h1 h2 a cl pl)
                  (mkFilterState t p' i h1 h2 a cl pl)
| change_activeIerTypes t p i i' h1 h2 a cl pl :
    ¬ same_elements i i' →
    single_change (mkFilterState t p i h1 h2 a cl pl)
                  (mkFilterState t p i' h1 h2 a cl pl)
| change_hideHubConnections t p i h1 h1' h2 a cl pl :
    h1 ≠ h1' →
    single_change (mkFilterState t p i h1 h2 a cl pl)
                  (mkFilterState t p i h1' h2 a cl pl)
| change_hideHub2Connections t p i h1 h2 h2' a cl pl :
    h2 ≠ h2' →
    single_change (mkFilterState t p i h1 h2 a cl pl)
                  (mkFilterState t p i h1 h2' a cl pl)
| change_showAggregatedConnections t p i h1 h2 a a' cl pl :
    a ≠ a' →
    single_change (mkFilterState t p i h1 h2 a cl pl)
                  (mkFilterState t p i h1 h2 a' cl pl)
| change_showConnectionLabels t p i h1 h2 a cl cl' pl :
    cl ≠ cl' →
    single_change (mkFilterState t p i h1 h2 a cl pl)
                  (mkFilterState t p i h1 h2 a cl' pl)
| change_showPinLabels t p i h1 h2 a cl pl pl' :
    pl ≠ pl' →
    single_change (mkFilterState t p i h1 h2 a cl pl)
                  (mkFilterState t p i h1 h2 a cl pl').

(** The members of an aggregate: the connections whose key is [key], in
    their order in the resolved list. *)
Definition members (key : string) (conns : list Connection) : list Connection :=
  List.filter (fun c => bool_decide (connKey c = Some key)) conns.

(** Two connections between the same unordered pair of coordinates. *)
Definition same_unordered_pair (c1 c2 : Connection) : Prop :=
  (_sourcePos c1 = _sourcePos c2 ∧ _targetPos c1 = _targetPos c2) ∨
  (_sourcePos c1 = _targetPos c2 ∧ _targetPos c1 = _sourcePos c2).

(** Agreement of two connections on coordinates, category, tags and hub
    flags. *)
Definition same_core (c1 c2 : Connection) : Prop :=
  _sourcePos c1 = _sourcePos c2 ∧ _targetPos c1 = _targetPos c2 ∧
  _connType c1 = _connType c2 ∧ _ierTypes c1 = _ierTypes c2 ∧
  _isHub1 c1 = _isHub1 c2 ∧ _isHub2 c1 = _isHub2 c2.

(** Agreement of two connections on the groups of their endpoints. *)
Definition same_groups (c1 c2 : Connection) : Prop :=
  _sourcePinType c1 = _sourcePinType c2 ∧ _targetPinType c1 = _targetPinType c2.

(** Two resolved lists that agree member by member on the core fields, and
    on the endpoint groups of every member that is the first of its key
    ([seen] holds the keys of the members before). *)
Fixpoint agree_except_later (seen : list (option string))
    (l1 l2 : list Connection) : Prop :=
  match l1, l2 with
  | [], [] => True
  | c1 :: r1, c2 :: r2 =>
      same_core c1 c2 ∧
      (connKey c1 ∉ seen → same_groups c1 c2) ∧
      agree_except_later (connKey c1 :: seen) r1 r2
  | _, _ => False
  end.

(** An accumulator after the connections [ms] have been added to it. *)
Definition addMembers (a : Agg.t) (ms : list Connection) : Agg.t :=
  foldl (fun a c => accumulate c a) a ms.

(** Agreement of two aggregates on every field but the endpoint references. *)
Definition agg_equiv (a b : Agg.t) : Prop :=
  Agg._sourcePos a = Agg._sourcePos b ∧ Agg._targetPos a = Agg._targetPos b ∧
  Agg._connTypes a = Agg._connTypes b ∧ Agg._ierTypes a = Agg._ierTypes b ∧
  Agg._count a = Agg._count b ∧
  Agg._sourcePinType a = Agg._sourcePinType b ∧
  Agg._targetPinType a = Agg._targetPinType b ∧
  Agg._isHub1 a = Agg._isHub1 b ∧ Agg._isHub2 a = Agg._isHub2 b.

Definition entry_equiv (e1 e2 : string * Agg.t) : Prop :=
  fst e1 = fst e2 ∧ agg_equiv (snd e1) (snd e2).

(** A point without its derived fields. *)
Definition base (p : Feature) : Properties * Geometry := (properties p, geometry p).

(** The points of a list whose coordinate string is [key], in their order. *)
Definition located (key : string) (pins : list Feature) : list Feature :=
  List.filter (fun p => bool_decide (locationKey p = key)) pins.

(** ** Properties of the helper functions *)

Lemma coalesce_chain (a b c d : JsVal) :
  ToString (((a ?? b) ?? (c ?? d)) ?? JStr "") =
  match first_defined [a; b; c; d] with
  | Some v => ToString v
  | None => ""
  end.
Proof.
  destruct a; try reflexivity; destruct b; try reflexivity;
    destruct c; try reflexivity; destruct d; reflexivity.
Qed.

Lemma upper_char_idem (c : ascii) : upper_char (upper_char c) = upper_char c.
Proof. destruct c as [[] [] [] [] [] [] [] []]; reflexivity. Qed.

Lemma toUpperCase_idem (s : string) : toUpperCase (toUpperCase s) = toUpperCase s.
Proof. induction s as [|c r IH]; simpl; [done|]. by rewrite upper_char_idem, IH. Qed.

Lemma getConnType_text (d : JsVal) :
  getConnType d =
  let up := toUpperCase (trim (match typeField d with
                               | Some v => ToString v
                               | None => ""
                               end)) in
  if String.eqb up "N_TYPE" then "N" else up.
Proof. unfold getConnType, getProp, typeField. by rewrite coalesce_chain. Qed.

(** ** Calls that can raise

    [String(v)] raises a [TypeError] when [v] is an object with a member
    of its own named [toString]: no value read from a data file is
    callable, so that member is skipped, and [valueOf], own or inherited,
    yields no primitive either.  Without such a member the inherited
    [toString] answers.  An array converts through [join], which
    converts every element that is neither [null] nor [undefined].
    [None] stands for the raise. *)
Fixpoint String_call (v : JsVal) : option string :=
  match v with
  | JUndefined => Some "undefined"
  | JNull => Some "null"
  | JBool true => Some "true"
  | JBool false => Some "false"
  | JNum n => Some (Number_toString n)
  | JStr s => Some s
  | JArr items =>
      join "," <$> mapM (fun x => match x with
                                  | JUndefined | JNull => Some ""
                                  | _ => String_call x
                                  end) items
  | JObj fields =>
      if map_has fields "toString" then None else Some "[object Object]"
  end.

(** Text whose characters are all ASCII. *)
Definition ascii_char (c : ascii) : bool := (nat_of_ascii c <? 128)%nat.

Fixpoint ascii_text (s : string) : bool :=
  match s with
  | EmptyString => true
  | String c r => ascii_char c && ascii_text r
  end.

(** What the conversion to a string returns, case by case: [converts v s]
    when [String(v)] returns [s], [unconvertible v] when it raises. *)
Inductive converts : JsVal → string → Prop :=
| converts_undefined : converts JUndefined "undefined"
| converts_null : converts JNull "null"
| converts_true : converts (JBool true) "true"
| converts_false : converts (JBool false) "false"
| converts_number n : converts (JNum n) (Number_toString n)
| converts_string s : converts (JStr s) s
| converts_array items parts :
    Forall2 (fun item part =>
               nullish item = true ∧ part = "" ∨
               nullish item = false ∧ converts item part)
            items parts →
    converts (JArr items) (join "," parts)
| converts_object fields :
    map_has fields "toString" = false →
    converts (JObj fields) "[object Object]".

Inductive unconvertible : JsVal → Prop :=
| unconvertible_object fields :
    map_has fields "toString" = true → unconvertible (JObj fields)
| unconvertible_array items item :
    item ∈ items → unconvertible item → unconvertible (JArr items).

Lemma ascii_text_trim (s : string) :
  ascii_text s = true → ascii_text (trim s) = true.
Proof.
  assert (Hstart : ∀ t, ascii_text t = true → ascii_text (trimStart t) = true).
  { induction t as [|c r IH]; [done|]. simpl.
    destruct (is_space c); [|done]. by intros [_ ?]%andb_prop; apply IH. }
  assert (Hend : ∀ t, ascii_text t = true → ascii_text (trimEnd t) = true).
  { induction t as [|c r IH]; [done|]. simpl. intros [Hc Hr]%andb_prop.
    destruct (is_space c && String.eqb (trimEnd r) ""); [done|].
    simpl. by rewrite Hc, IH. }
  intros Hs. by apply Hend, Hstart.
Qed.

Section Calls.

(** [String.prototype.trim] and [String.prototype.toUpperCase] follow the
    Unicode tables of the platform; on ASCII text they are [trim] and
    [toUpperCase]. *)
Variables String_prototype_trim String_prototype_toUpperCase : string → string.

Hypothesis String_prototype_trim_ascii :
  ∀ s, ascii_text s = true → String_prototype_trim s = trim s.
Hypothesis String_prototype_toUpperCase_ascii :
  ∀ s, ascii_text s = true → String_prototype_toUpperCase s = toUpperCase s.

(** The call [getConnType(d)]. *)
Definition getConnType_call (d : JsVal) : option string :=
  let t := getProp d "Connection_type" ?? getProp d "connection_type" in
  s ← String_call (t ?? JStr "");
  let up := String_prototype_toUpperCase (String_prototype_trim s) in
  Some (if String.eqb up "N_TYPE" then "N" else up).

(** The call [getIERArray(d)]. *)
Definition getIERArray_call (d : JsVal) : option (list string) :=
  let ierValue := getProp d "IER" in
  match ierValue with
  | JArr items =>
      mapM (fun item =>
              String_prototype_toUpperCase <$> String_call (item ?? JStr ""))
           items
  | _ => Some []
  end.

(** Induction on JSON values, with the hypothesis for every element of an
    array. *)
Lemma JsVal_elements_ind (P : JsVal → Prop) :
  P JUndefined → P JNull → (∀ b, P (JBool b)) → (∀ n, P (JNum n)) →
  (∀ s, P (JStr s)) → (∀ items, Forall P items → P (JArr items)) →
  (∀ fields, P (JObj fields)) → ∀ v, P v.
Proof.
  intros Hu Hn Hb Hnum Hs Ha Ho.
  exact (fix IH (v : JsVal) : P v :=
           match v with
           | JUndefined => Hu
           | JNull => Hn
           | JBool b => Hb b
           | JNum n => Hnum n
           | JStr s => Hs s
           | JArr items =>
               Ha items
                  ((fix go (l : list JsVal) : Forall P l :=
                      match l with
                      | [] => @List.Forall_nil _ P
                      | x :: r => @List.Forall_cons _ P x r (IH x) (go r)
                      end) items)
           | JObj fields => Ho fields
           end).
Qed.

Lemma element_call (x : JsVal) :
  match x with
  | JUndefined | JNull => Some ""
  | _ => String_call x
  end = if nullish x then Some "" else String_call x.
Proof. by destruct x. Qed.

Lemma String_call_converts (v : JsVal) (s : string) :
  String_call v = Some s ↔ converts v s.
Proof.
  revert s. induction v as [| |b|n|t|items IH|fields] using JsVal_elements_ind;
    intros s.
  - split; [intros [= <-]; constructor|by inversion 1].
  - split; [intros [= <-]; constructor|by inversion 1].
  - destruct b; (split; [intros [= <-]; constructor|by inversion 1]).
  - split; [intros [= <-]; constructor|by inversion 1].
  - split; [intros [= <-]; constructor|by inversion 1].
  - cbn [String_call]. rewrite fmap_Some. split.
    + intros (parts & Hparts & ->). constructor.
      apply mapM_Some_1 in Hparts.
      induction Hparts as [|x part r parts Hx Hr IHr]; [constructor|].
      apply Forall_cons in IH as [IHx IHrest]. constructor; [|by apply IHr].
      rewrite element_call in Hx. destruct (nullish x) eqn:E.
      * left. split; [done|]. by injection Hx.
      * right. split; [done|]. by apply IHx.
    + intros Hconv. inversion Hconv as [| | | | | |items' parts Hparts|]; subst.
      clear Hconv. exists parts. split; [|done]. apply mapM_Some_2.
      induction Hparts as [|x part r parts' Hx Hr IHr]; [constructor|].
      apply Forall_cons in IH as [IHx IHrest]. constructor; [|by apply IHr].
      rewrite element_call.
      destruct Hx as [[-> ->]|[-> Hc]]; [done|]. by apply IHx.
  - cbn [String_call]. destruct (map_has fields "toString") eqn:E.
    + split; [done|]. inversion 1; congruence.
    + split; [intros [= <-]; by constructor|by inversion 1].
Qed.

Lemma String_call_raises (v : JsVal) :
  String_call v = None ↔ unconvertible v.
Proof.
  induction v as [| |b|n|t|items IH|fields] using JsVal_elements_ind;
    try (split; [try destruct b; done|by inversion 1]).
  - cbn [String_call]. rewrite fmap_None, mapM_None. split.
    + intros Hex. apply Exists_exists in Hex as (x & Hin & Hx).
      rewrite element_call in Hx. destruct (nullish x); [done|].
      rewrite Forall_forall in IH. econstructor; [exact Hin|]. by apply IH.
    + intros Hraise. inversion Hraise as [|items' item Hin Hitem]; subst.
      apply Exists_exists. exists item. split; [done|].
      rewrite element_call. rewrite Forall_forall in IH.
      destruct (nullish item) eqn:E; [|by apply IH].
      destruct item; try done; inversion Hitem.
  - cbn [String_call]. destruct (map_has fields "toString") eqn:E.
    + split; [by constructor|done].
    + split; [done|]. inversion 1; congruence.
Qed.

(** When the conversion returns, it returns [ToString v]. *)
Lemma String_call_ToString (v : JsVal) (s : string) :
  String_call v = Some s → ToString v = s.
Proof.
  revert s. induction v as [| |b|n|t|items IH|fields] using JsVal_elements_ind;
    intros s; try (try destruct b; by intros [= <-]).
  - cbn [String_call ToString]. rewrite fmap_Some.
    intros (parts & Hparts & ->). f_equal.
    apply mapM_Some_1 in Hparts.
    induction Hparts as [|x part r parts Hx Hr IHr]; [done|].
    apply Forall_cons in IH as [IHx IHrest]. simpl. f_equal; [|by apply IHr].
    rewrite element_call in Hx. destruct x; try (by injection Hx); by apply IHx.
  - cbn [String_call ToString]. by destruct (map_has fields "toString"); intros [= <-].
Qed.

Lemma coalesce_first_defined (a b c d : JsVal) :
  ((a ?? b) ?? (c ?? d)) ?? JStr "" = default (JStr "") (first_defined [a; b; c; d]).
Proof.
  destruct a; try reflexivity; destruct b; try reflexivity;
    destruct c; try reflexivity; destruct d; reflexivity.
Qed.

Lemma getConnType_call_text (d : JsVal) :
  getConnType_call d =
  s ← String_call (default (JStr "") (typeField d));
  let up := String_prototype_toUpperCase (String_prototype_trim s) in
  Some (if String.eqb up "N_TYPE" then "N" else up).
Proof.
  unfold getConnType_call, getProp, typeField. by rewrite coalesce_first_defined.
Qed.

(** On ASCII text the call returns the value of [getConnType]. *)
Lemma getConnType_call_value (d : JsVal) (s : string) :
  String_call (default (JStr "") (typeField d)) = Some s →
  ascii_text s = true →
  getConnType_call d = Some (getConnType d).
Proof.
  intros Hs Ha. rewrite getConnType_call_text, getConnType_text, Hs. simpl.
  assert (Htext : ToString (default (JStr "") (typeField d)) = s)
    by (by apply String_call_ToString).
  assert (Hsame : match typeField d with
                  | Some v => ToString v
                  | None => ""
                  end = s) by (by destruct (typeField d)).
  rewrite Hsame, String_prototype_trim_ascii by done.
  by rewrite String_prototype_toUpperCase_ascii by (by apply ascii_text_trim).
Qed.

(** C6 (as amended). For every record whose type field converts to a
    string, the connection classifier reads the type field
    ([Connection_type] before [connection_type], each directly and then
    under [properties]), trims and upper-cases its text, maps [N_TYPE] to
    [N] and returns every other upper-cased value unchanged; it returns
    the empty string when the field is missing or empty, and raw
    ["N_TYPE"] classifies to exactly ["N"].  When the conversion of the
    type field raises, so does the classifier. *)
Theorem getConnType_call_classifies (d : JsVal) :
  let field := default (JStr "") (typeField d) in
  (unconvertible field ↔ getConnType_call d = None) ∧
  (∀ s, converts field s →
     let up := String_prototype_toUpperCase (String_prototype_trim s) in
     (up = "N_TYPE" → getConnType_call d = Some "N") ∧
     (up ≠ "N_TYPE" → getConnType_call d = Some up)) ∧
  (∀ s, converts field s → ascii_text s = true →
     let up := toUpperCase (trim s) in
     getConnType_call d = Some (if String.eqb up "N_TYPE" then "N" else up)) ∧
  (typeField d = None ∨ typeField d = Some (JStr "") →
     getConnType_call d = Some "") ∧
  (typeField d = Some (JStr "N_TYPE") → getConnType_call d = Some "N").
Proof.
  assert (Htext : ∀ s, ascii_text s = true →
            String_prototype_toUpperCase (String_prototype_trim s)
            = toUpperCase (trim s)).
  { intros s Hs. rewrite String_prototype_trim_ascii by done.
    by rewrite String_prototype_toUpperCase_ascii by (by apply ascii_text_trim). }
  intros field. rewrite getConnType_call_text. fold field.
  split; [|split; [|split; [|split]]].
  - rewrite <- String_call_raises.
    destruct (String_call field); simpl; split; done.
  - intros s Hs%String_call_converts. rewrite Hs. simpl. split; intros Hup.
    + by rewrite Hup.
    + by apply String.eqb_neq in Hup as ->.
  - intros s Hs%String_call_converts Ha. rewrite Hs. simpl.
    by rewrite Htext.
  - intros Hfield.
    assert (Hempty : String_call field = Some "").
    { unfold field. by destruct Hfield as [-> | ->]. }
    rewrite Hempty. simpl. by rewrite Htext.
  - intros Hfield.
    assert (Hraw : String_call field = Some "N_TYPE").
    { unfold field. by rewrite Hfield. }
    rewrite Hraw. simpl. by rewrite Htext.
Qed.

Lemma tagField_getProp (d : JsVal) :
  tagField d = None ∧ nullish (getProp d "IER") = true ∨
  tagField d = Some (getProp d "IER").
Proof.
  unfold tagField, getProp, first_defined, coalesce; simpl.
  destruct (nullish (opt_get d "IER")) eqn:Ha; simpl; [|by right].
  destruct (nullish (opt_get (opt_get d "properties") "IER")) eqn:Hb; simpl;
    [by left|by right].
Qed.

Lemma element_converts (item : JsVal) (s : string) :
  String_call (item ?? JStr "") = Some s ↔
  nullish item = true ∧ s = "" ∨ nullish item = false ∧ converts item s.
Proof.
  unfold coalesce. destruct (nullish item) eqn:E.
  - simpl. split; [intros [= <-]; by left|]. by intros [[_ ->]|[? _]].
  - rewrite String_call_converts. split; [by right|]. by intros [[? _]|[_ ?]].
Qed.

(** C8 (as amended). The tag-array extractor returns the empty array for
    a missing or non-array tag field.  When the field holds an array it
    returns, element by element, the upper-cased text of the element (the
    empty text for a [null] element); it raises exactly when some element
    cannot be converted to a string, that is when an element is an object
    with a member named [toString] or an array that holds such an
    object. *)
Theorem getIERArray_call_extracts (d : JsVal) :
  ((∀ items, tagField d ≠ Some (JArr items)) → getIERArray_call d = Some []) ∧
  (∀ items, tagField d = Some (JArr items) →
     (getIERArray_call d = None ↔ ∃ item, item ∈ items ∧ unconvertible item) ∧
     (∀ tags, getIERArray_call d = Some tags →
        length tags = length items ∧
        ∀ i item, items !! i = Some item →
          ∃ s, (nullish item = true ∧ s = "" ∨
                nullish item = false ∧ converts item s) ∧
               tags !! i = Some (String_prototype_toUpperCase s)) ∧
     (∀ texts, items = map JStr texts → Forall (fun t => ascii_text t = true) texts →
        getIERArray_call d = Some (map toUpperCase texts))).
Proof.
  pose proof (tagField_getProp d) as Hfield. split.
  - intros Hnot. unfold getIERArray_call.
    destruct Hfield as [[_ Hnull]|Hsome].
    + by destruct (getProp d "IER").
    + destruct (getProp d "IER") eqn:E; try done. by specialize (Hnot items).
  - intros items Hitems. unfold getIERArray_call.
    destruct Hfield as [[Hnone _]|Hsome]; [congruence|].
    rewrite Hsome in Hitems. injection Hitems as ->.
    split; [|split].
    + rewrite mapM_None, Exists_exists. split.
      * intros (item & Hin & Hraise). exists item. split; [done|].
        apply fmap_None in Hraise. unfold coalesce in Hraise.
        destruct (nullish item); [done|]. by apply String_call_raises.
      * intros (item & Hin & Hraise). exists item. split; [done|].
        apply fmap_None. unfold coalesce.
        destruct (nullish item) eqn:E; [|by apply String_call_raises].
        destruct item; try done; inversion Hraise.
    + intros tags Htags. apply mapM_Some_1 in Htags.
      split; [symmetry; by eapply Forall2_length|].
      intros i item Hi.
      destruct (Forall2_lookup_l _ _ _ _ _ Htags Hi) as (tag & Htag & Hcall).
      apply fmap_Some in Hcall as (s & Hs & ->).
      exists s. split; [by apply element_converts|done].
    + intros texts -> Hascii. apply mapM_Some_2.
      induction Hascii as [|t r Ht Hr IH]; simpl; constructor; [|done].
      simpl. by rewrite String_prototype_toUpperCase_ascii.
Qed.

End Calls.

(** ** Properties of the connection resolver *)

Lemma num_ltb_lt (a b : Qc) : num_ltb a b = true ↔ (a < b)%Qc.
Proof.
  unfold num_ltb. rewrite Qclt_alt. destruct (a ?= b)%Qc; split; congruence.
Qed.

Lemma targetLongitude_toLng (pointMap : gmap string Feature) (c : JsVal) :
  targetLongitude pointMap c =
  match pointMap_get pointMap (getProp c "to") with
  | Some toPoint =>
      if String.eqb (type (geometry toPoint)) "Point"
      then coordinates (geometry toPoint) !! 0%nat
      else None
  | None => None
  end.
Proof.
  unfold targetLongitude, pointPosition.
  destruct (pointMap_get pointMap (getProp c "to")) as [p|]; [|done].
  by destruct (String.eqb (type (geometry p)) "Point").
Qed.

(** C5. The inclusion rule of the first filter pass only concerns
    connections classified [TR]: with source name ['Ohio Pin'] the
    connection is kept iff the resolved target longitude is greater than
    -90, with source name ['FOB1'] iff it is less than -90; a [TR]
    connection whose target has no resolved longitude is kept, and so is
    every connection of another category or with another source name. *)
Theorem keepConnection_rule (pointMap : gmap string Feature) (c : JsVal) :
  (getConnType c ≠ "TR" → keepConnection pointMap c = true) ∧
  (getConnType c = "TR" →
     (targetLongitude pointMap c = None → keepConnection pointMap c = true) ∧
     (∀ toLng, targetLongitude pointMap c = Some toLng →
        (getProp c "from" = JStr "Ohio Pin" →
           (keepConnection pointMap c = true ↔ (num (-90) < toLng)%Qc)) ∧
        (getProp c "from" = JStr "FOB1" →
           (keepConnection pointMap c = true ↔ (toLng < num (-90))%Qc)) ∧
        (getProp c "from" ≠ JStr "Ohio Pin" → getProp c "from" ≠ JStr "FOB1" →
           keepConnection pointMap c = true))).
Proof.
  unfold keepConnection. rewrite <- targetLongitude_toLng. split.
  - intros Hne. by apply String.eqb_neq in Hne as ->.
  - intros ->. simpl. split; [by intros ->|].
    intros toLng ->. split; [|split].
    + intros ->. simpl. apply num_ltb_lt.
    + intros ->. simpl. apply num_ltb_lt.
    + intros Hohio Hfob. destruct (getProp c "from") as [| | | |s| |]; simpl; try done.
      destruct (String.eqb s "Ohio Pin") eqn:E1.
      { apply String.eqb_eq in E1 as ->. done. }
      destruct (String.eqb s "FOB1") eqn:E2; [|done].
      apply String.eqb_eq in E2 as ->. done.
Qed.

Lemma indexPoint_no_empty_name (m : gmap string Feature) (p : Feature) :
  m !! "" = None → indexPoint m p !! "" = None.
Proof.
  intros Hm. unfold indexPoint.
  destruct (String.eqb (getPointName p) "") eqn:E; [done|].
  apply String.eqb_neq in E. by rewrite lookup_insert_ne.
Qed.

Lemma buildPointMap_no_empty_name (allPoints : list Feature) :
  buildPointMap allPoints !! "" = None.
Proof.
  unfold buildPointMap. rewrite lookup_insert_ne by done.
  assert (H : ∀ m : gmap string Feature,
             m !! "" = None → foldl indexPoint m allPoints !! "" = None).
  { induction allPoints as [|p r IH]; intros m Hm; simpl; [done|].
    by apply IH, indexPoint_no_empty_name. }
  by apply H.
Qed.

Lemma pointPosition_Some (p : option Feature) (pos : list Qc) :
  pointPosition p = Some pos →
  ∃ q, p = Some q ∧ type (geometry q) = "Point" ∧ pos = coordinates (geometry q).
Proof.
  destruct p as [q|]; simpl; [|done].
  destruct (String.eqb (type (geometry q)) "Point") eqn:E; [|done].
  intros [= <-]. apply String.eqb_eq in E. by exists q.
Qed.

Lemma processConnections_elem (pointMap : gmap string Feature)
    (connectionsJson : list JsVal) (r : Connection) :
  r ∈ processConnections pointMap connectionsJson ↔
  ∃ c, c ∈ connectionsJson ∧ keepConnection pointMap c = true ∧
       r = resolveConnection pointMap c ∧ hasPositions r = true.
Proof.
  unfold processConnections.
  rewrite list_elem_of_In, filter_In, in_map_iff. split.
  - intros [(c & <- & Hc) Hpos]. apply filter_In in Hc as [Hc Hkeep].
    exists c. by rewrite list_elem_of_In.
  - intros (c & Hc & Hkeep & -> & Hpos). split; [|done].
    exists c. split; [done|]. apply filter_In. by rewrite <- list_elem_of_In.
Qed.

Lemma unresolved_dropped (pointMap : gmap string Feature)
    (connectionsJson : list JsVal) (c : JsVal) :
  pointPosition (pointMap_get pointMap (getProp c "from")) = None ∨
  pointPosition (pointMap_get pointMap (getProp c "to")) = None →
  ∀ r, r ∈ processConnections pointMap connectionsJson → raw r ≠ c.
Proof.
  intros Hnone r (c' & _ & _ & -> & Hpos)%processConnections_elem Heq.
  simpl in Heq. subst c'.
  unfold hasPositions in Hpos. simpl in Hpos.
  destruct Hnone as [Hnone|Hnone]; rewrite Hnone in Hpos; [done|].
  by destruct (pointPosition (pointMap_get pointMap (getProp c "from"))).
Qed.

(** C1. Every record of the resolved-connections output has a defined
    source position and a defined target position, each being the
    coordinates of the [Point] feature that the endpoint name resolves to in
    the point index; a raw connection one of whose endpoints does not
    resolve to such a point never appears in the output. *)
Theorem processedConnections_resolved
    (pointsJson : Data) (connectionsJson : list JsVal) :
  let pointMap := buildPointMap (allPointsOf pointsJson) in
  (∀ r, r ∈ preprocessConnections pointsJson connectionsJson →
     ∃ fromPoint toPoint,
       raw r ∈ connectionsJson ∧
       pointMap_get pointMap (getProp (raw r) "from") = Some fromPoint ∧
       pointMap_get pointMap (getProp (raw r) "to") = Some toPoint ∧
       type (geometry fromPoint) = "Point" ∧
       type (geometry toPoint) = "Point" ∧
       _sourcePos r = Some (coordinates (geometry fromPoint)) ∧
       _targetPos r = Some (coordinates (geometry toPoint))) ∧
  (∀ c, pointPosition (pointMap_get pointMap (getProp c "from")) = None ∨
        pointPosition (pointMap_get pointMap (getProp c "to")) = None →
     ∀ r, r ∈ preprocessConnections pointsJson connectionsJson → raw r ≠ c).
Proof.
  intros pointMap. unfold preprocessConnections. fold pointMap. split.
  - intros r (c & Hc & _ & -> & Hpos)%processConnections_elem.
    unfold hasPositions in Hpos. simpl in *.
    destruct (pointPosition (pointMap_get pointMap (getProp c "from")))
      as [s|] eqn:Hs; [|done].
    destruct (pointPosition (pointMap_get pointMap (getProp c "to")))
      as [t|] eqn:Ht; [|done].
    apply pointPosition_Some in Hs as (p & Hp & Hptype & ->).
    apply pointPosition_Some in Ht as (q & Hq & Hqtype & ->).
    by exists p, q.
  - intros c Hnone. by apply unresolved_dropped.
Qed.

(** C9. A point whose name is the empty string is never entered into the
    point index, so the key [""] is absent from it whatever the points are;
    a connection whose [from] or [to] reference is the empty string
    therefore never appears in the resolved output. *)
Theorem empty_reference_dropped (pointsJson : Data) :
  buildPointMap (allPointsOf pointsJson) !! "" = None ∧
  (∀ p, p ∈ allPointsOf pointsJson → getPointName p = "" →
        ∀ m, indexPoint m p = m) ∧
  (∀ connectionsJson c,
     getProp c "from" = JStr "" ∨ getProp c "to" = JStr "" →
     ∀ r, r ∈ preprocessConnections pointsJson connectionsJson → raw r ≠ c).
Proof.
  split; [apply buildPointMap_no_empty_name|]. split.
  - intros p _ Hname m. unfold indexPoint. by rewrite Hname.
  - intros connectionsJson c Hempty.
    apply unresolved_dropped.
    pose proof (buildPointMap_no_empty_name (allPointsOf pointsJson)) as Hno.
    destruct Hempty as [->| ->]; simpl; rewrite Hno; auto.
Qed.

(** ** Properties of the visibility engine *)

Lemma set_has_elem (s : list string) (x : string) : set_has s x = true ↔ x ∈ s.
Proof.
  unfold set_has. induction s as [|y r IH]; simpl.
  - split; [done|]. by intros ?%elem_of_nil.
  - rewrite elem_of_cons, orb_true_iff, IH, String.eqb_eq. done.
Qed.

Lemma set_has_mono (s s' : list string) (x : string) :
  (∀ y, y ∈ s → y ∈ s') → set_has s x = true → set_has s' x = true.
Proof. rewrite !set_has_elem. auto. Qed.

Lemma ierVisible_mono (fs fs' : FilterState) (ierTypes : list string) :
  (∀ x, x ∈ activeIerTypes fs → x ∈ activeIerTypes fs') →
  (activeIerTypes fs = [] → activeIerTypes fs' = []) →
  ierVisible fs ierTypes = true → ierVisible fs' ierTypes = true.
Proof.
  intros Hsub Hempty. unfold ierVisible. rewrite !orb_true_iff.
  intros [Hsize|Hsome].
  - left. destruct (activeIerTypes fs); [|done]. by rewrite Hempty.
  - right. apply existsb_exists in Hsome as (t & Ht & Hhas).
    apply existsb_exists. exists t. split; [done|]. by eapply set_has_mono.
Qed.

(** C2 (as amended). The connection visibility predicate is monotonic in
    the category and group sets, and in the tag set as long as tag filtering
    is in force before and after or off before and after: if [fs'] enables
    every category, group and tag that [fs] enables, has the same
    hub-suppression flags, and has an empty active-tag set whenever [fs]
    has one, then a connection visible under [fs] is visible under [fs']. *)
Theorem getConnectionFilterValue_mono (fs fs' : FilterState) (d : Connection) :
  extends fs fs' →
  (activeIerTypes fs = [] → activeIerTypes fs' = []) →
  getConnectionFilterValue fs d = 1 → getConnectionFilterValue fs' d = 1.
Proof.
  intros (Htypes & Hpins & Hier & Hhub1 & Hhub2) Hempty.
  unfold getConnectionFilterValue, pinTypeActive. rewrite <- Hhub1, <- Hhub2.
  destruct (set_has (activeTypes fs) (_connType d)) eqn:Ht; simpl; [|done].
  rewrite (set_has_mono _ _ _ Htypes Ht). simpl.
  destruct (negb (hideHubConnections fs) || negb (_isHub1 d)); simpl; [|done].
  destruct (negb (hideHub2Connections fs) || negb (_isHub2 d)); simpl; [|done].
  destruct (bool_decide (_sourcePinType d ∈ activePointTypes fs)) eqn:Hs;
    simpl; [|done].
  apply bool_decide_eq_true in Hs.
  rewrite (bool_decide_eq_true_2 _ (Hpins _ Hs)). simpl.
  destruct (bool_decide (_targetPinType d ∈ activePointTypes fs)) eqn:Hg;
    simpl; [|done].
  apply bool_decide_eq_true in Hg.
  rewrite (bool_decide_eq_true_2 _ (Hpins _ Hg)). simpl.
  destruct (ierVisible fs (_ierTypes d)) eqn:Hv; [|done].
  by rewrite (ierVisible_mono fs fs' _ Hier Hempty Hv).
Qed.

(** ** Properties of the filter key *)

Lemma app_cons (c : ascii) (a b : string) : String c a +:+ b = String c (a +:+ b).
Proof. reflexivity. Qed.

Lemma app_empty_r (a : string) : a +:+ "" = a.
Proof. induction a as [|c a IH]; [done|]. by rewrite app_cons, IH. Qed.

Lemma app_assoc_str (a b c : string) : (a +:+ b) +:+ c = a +:+ b +:+ c.
Proof. induction a as [|x a IH]; [done|]. by rewrite !app_cons, IH. Qed.

Lemma app_chars (a b : string) :
  list_ascii_of_string (a +:+ b) = list_ascii_of_string a ++ list_ascii_of_string b.
Proof. induction a as [|c a IH]; [done|]. rewrite app_cons. simpl. by rewrite IH. Qed.

Lemma app_cancel_r (a b r : string) : a +:+ r = b +:+ r → a = b.
Proof.
  intros H. apply (f_equal list_ascii_of_string) in H.
  rewrite !app_chars in H. apply app_inv_tail in H.
  apply (f_equal string_of_list_ascii) in H.
  by rewrite !string_of_list_ascii_of_string in H.
Qed.

Lemma app_cancel_l (p a b : string) : p +:+ a = p +:+ b → a = b.
Proof. apply String.app_inj. Qed.

Lemma app_cancel_mid (p a b r : string) : p +:+ a +:+ r = p +:+ b +:+ r → a = b.
Proof. intros H%app_cancel_l. by eapply app_cancel_r. Qed.

Lemma plain_split (a b x y : string) :
  contains_char "," a = false → contains_char "," b = false →
  (x = "" ∨ ∃ r, x = String "," r) → (y = "" ∨ ∃ r, y = String "," r) →
  a +:+ x = b +:+ y → a = b ∧ x = y.
Proof.
  revert b. induction a as [|c a IH]; intros [|c' b] Ha Hb Hx Hy; simpl in *.
  - done.
  - rewrite (app_cons c' b y). change ("" +:+ x) with x. intros ->.
    apply orb_false_iff in Hb as [Hc _].
    destruct Hx as [?|[r [= -> _]]]; done.
  - rewrite (app_cons c a x). change ("" +:+ y) with y. intros <-.
    apply orb_false_iff in Ha as [Hc _].
    destruct Hy as [?|[r [= -> _]]]; done.
  - rewrite (app_cons c a x), (app_cons c' b y). intros [= -> H].
    apply orb_false_iff in Ha as [_ Ha]. apply orb_false_iff in Hb as [_ Hb].
    destruct (IH b Ha Hb Hx Hy H) as [-> ->]. done.
Qed.

Lemma join_cons (sep p : string) (rest : list string) :
  join sep (p :: rest) =
  p +:+ match rest with [] => "" | _ => sep +:+ join sep rest end.
Proof. destruct rest; simpl; [by rewrite app_empty_r|done]. Qed.

Lemma join_comma_inj (l l' : list string) :
  Forall plain l → Forall plain l' → join "," l = join "," l' → l = l'.
Proof.
  intros Hl. revert l'. induction Hl as [|p r [Hp Hpc] Hr IH]; intros l' Hl'.
  - destruct Hl' as [|p' r' [Hp' _] _]; [done|]. rewrite join_cons.
    destruct p'; [done|]. by rewrite app_cons.
  - destruct Hl' as [|p' r' [Hp' Hpc'] Hr'].
    { rewrite join_cons. destruct p; [done|]. by rewrite app_cons. }
    rewrite !join_cons. intros H.
    apply plain_split in H as [-> Ht]; try done.
    + f_equal. destruct r as [|q r], r' as [|q' r']; try done.
      apply IH; [done|]. by apply (app_cancel_l ",").
    + destruct r; [by left|right]. by eexists.
    + destruct r'; [by left|right]. by eexists.
Qed.

Lemma sort_strings_perm (l : list string) : sort_strings l ≡ₚ l.
Proof. apply merge_sort_Permutation. Qed.

Lemma sort_strings_proper (l l' : list string) :
  l ≡ₚ l' → sort_strings l = sort_strings l'.
Proof.
  intros H. apply (Sorted_unique String.le); try apply Sorted_merge_sort; try apply _.
  by rewrite !sort_strings_perm.
Qed.

Lemma sorted_join_inj (l l' : list string) :
  Forall plain l → Forall plain l' →
  join "," (sort_strings l) = join "," (sort_strings l') → same_elements l l'.
Proof.
  intros Hl Hl' H. apply join_comma_inj in H.
  - intros x. by rewrite <- (sort_strings_perm l), <- (sort_strings_perm l'), H.
  - by rewrite sort_strings_perm.
  - by rewrite sort_strings_perm.
Qed.

Lemma PointType_name_plain (t : PointType) : plain (PointType_name t).
Proof. by destruct t. Qed.

Lemma PointType_name_inj (t t' : PointType) :
  PointType_name t = PointType_name t' → t = t'.
Proof. destruct t, t'; simpl; intros H; try reflexivity; discriminate H. Qed.

Lemma flag_inj (b b' : bool) : flag b = flag b' → b = b'.
Proof. by destruct b, b'. Qed.

(** The filter-state key does not depend on the order in which the
    active sets are enumerated; and when no active category or tag is the
    empty string or contains a comma, two states that differ in exactly one
    dimension have different keys. *)
Lemma filterKey_sound :
  (∀ fs fs', same_up_to_order fs fs' → filterKey fs = filterKey fs') ∧
  (∀ fs fs', plain_keys fs → plain_keys fs' → single_change fs fs' →
             filterKey fs ≠ filterKey fs').
Proof.
  split.
  - intros fs fs' (Ht & Hp & Hi & Hh1 & Hh2 & Ha & Hcl & Hpl). unfold filterKey.
    rewrite (sort_strings_proper _ _ Ht), (sort_strings_proper _ _ Hi).
    rewrite (sort_strings_proper _ _ (Permutation_map PointType_name Hp)).
    by rewrite Hh1, Hh2, Ha, Hcl, Hpl.
  - intros fs fs' [Ht Hi] [Ht' Hi'] Hchange Hkey. unfold filterKey in Hkey.
    destruct Hchange as [t t' p i h1 h2 a cl pl Hne|t p p' i h1 h2 a cl pl Hne
      |t p i i' h1 h2 a cl pl Hne|t p i h1 h1' h2 a cl pl Hne
      |t p i h1 h2 h2' a cl pl Hne|t p i h1 h2 a a' cl pl Hne
      |t p i h1 h2 a cl cl' pl Hne|t p i h1 h2 a cl pl pl' Hne];
      simpl in *; apply Hne; clear Hne; rewrite !app_assoc_str in Hkey.
    + apply sorted_join_inj; [done..|]. by eapply app_cancel_r.
    + do 8 apply app_cancel_l in Hkey. apply app_cancel_r in Hkey.
      assert (Hnames : same_elements (PointType_name <$> p) (PointType_name <$> p')).
      { apply sorted_join_inj; [| |done];
          apply Forall_forall; intros x (y & -> & _)%list_elem_of_fmap;
          apply PointType_name_plain. }
      intros x. specialize (Hnames (PointType_name x)).
      split; intros Hx.
      * apply (list_elem_of_fmap_2 PointType_name) in Hx.
        apply Hnames in Hx. apply list_elem_of_fmap in Hx as (y & Hy & Hin).
        by apply PointType_name_inj in Hy as ->.
      * apply (list_elem_of_fmap_2 PointType_name) in Hx.
        apply Hnames in Hx. apply list_elem_of_fmap in Hx as (y & Hy & Hin).
        by apply PointType_name_inj in Hy as ->.
    + do 10 apply app_cancel_l in Hkey. apply app_cancel_r in Hkey.
      by apply sorted_join_inj.
    + do 3 apply app_cancel_l in Hkey. apply app_cancel_r in Hkey.
      by apply flag_inj in Hkey.
    + do 6 apply app_cancel_l in Hkey. apply app_cancel_r in Hkey.
      by apply flag_inj in Hkey.
    + do 13 apply app_cancel_l in Hkey. apply app_cancel_r in Hkey.
      by apply flag_inj in Hkey.
    + do 15 apply app_cancel_l in Hkey. apply app_cancel_r in Hkey.
      by apply flag_inj in Hkey.
    + do 17 apply app_cancel_l in Hkey. by apply flag_inj in Hkey.
Qed.

(** ** Properties of the insertion-ordered map *)

Lemma map_has_get {V : Type} (m : list (string * V)) (k : string) :
  map_has m k = false ↔ map_get m k = None.
Proof.
  induction m as [|[k' v] r IH]; simpl; [done|].
  destruct (String.eqb k' k); simpl; [split; done|done].
Qed.

Lemma map_has_keys {V : Type} (m : list (string * V)) (k : string) :
  map_has m k = true ↔ k ∈ map fst m.
Proof.
  induction m as [|[k' v] r IH]; simpl.
  - split; [done|]. by intros ?%elem_of_nil.
  - rewrite elem_of_cons, orb_true_iff, IH, String.eqb_eq. split; intros [?|?]; auto.
Qed.

Lemma map_get_set_new {V : Type} (m : list (string * V)) (k k' : string) (v : V) :
  map_get (map_set_new m k v) k' =
  match map_get m k' with
  | Some x => Some x
  | None => if String.eqb k k' then Some v else None
  end.
Proof.
  unfold map_set_new. induction m as [|[k0 v0] r IH]; simpl; [done|].
  by destruct (String.eqb k0 k').
Qed.

Lemma map_get_update {V : Type} (f : V → V) (m : list (string * V)) (k k' : string) :
  map_get (map_update f m k) k' =
  if String.eqb k k' then f <$> map_get m k else map_get m k'.
Proof.
  induction m as [|[k0 v0] r IH]; simpl; [by destruct (String.eqb k k')|].
  destruct (String.eqb k0 k) eqn:E0; simpl.
  - apply String.eqb_eq in E0 as ->. by destruct (String.eqb k k').
  - rewrite IH. destruct (String.eqb k k') eqn:E; [|done].
    apply String.eqb_eq in E as <-. by rewrite E0.
Qed.

Lemma map_update_keys {V : Type} (f : V → V) (m : list (string * V)) (k : string) :
  map fst (map_update f m k) = map fst m.
Proof.
  induction m as [|[k0 v0] r IH]; simpl; [done|].
  destruct (String.eqb k0 k); simpl; [done|by rewrite IH].
Qed.

Lemma map_get_entry {V : Type} (m : list (string * V)) (k : string) (v : V) :
  NoDup (map fst m) → (k, v) ∈ m ↔ map_get m k = Some v.
Proof.
  induction m as [|[k0 v0] r IH]; simpl; intros Hnd.
  - split; [by intros ?%elem_of_nil|done].
  - apply NoDup_cons in Hnd as [Hk0 Hnd]. rewrite elem_of_cons, (IH Hnd).
    destruct (String.eqb k0 k) eqn:E.
    + apply String.eqb_eq in E as ->. split.
      * intros [[= ->]|Hget]; [done|]. exfalso. apply Hk0.
        apply (proj2 (IH Hnd)), (list_elem_of_fmap_2 fst) in Hget. done.
      * intros [= ->]. by left.
    + apply String.eqb_neq in E. split; [|by right].
      intros [[= -> ->]|?]; done.
Qed.

Lemma map_get_filter {V : Type} (m : list (string * V)) (k : string) (v : V) :
  NoDup (map fst m) → map_get m k = Some v →
  List.filter (fun e => String.eqb (fst e) k) m = [(k, v)].
Proof.
  induction m as [|[k0 v0] r IH]; simpl; intros Hnd; [done|].
  apply NoDup_cons in Hnd as [Hk0 Hnd].
  destruct (String.eqb k0 k) eqn:E.
  - apply String.eqb_eq in E as ->. intros [= ->]. f_equal.
    clear IH Hnd. induction r as [|[k1 v1] r IH]; simpl; [done|].
    destruct (String.eqb k1 k) eqn:E1.
    + apply String.eqb_eq in E1 as ->. exfalso. apply Hk0. simpl. by left.
    + apply IH. intros Hin. apply Hk0. simpl. by right.
  - by apply IH.
Qed.

(** ** Properties of the connection aggregator *)

Lemma aggregateStep_get (m m1 : list (string * Agg.t)) (c : Connection)
    (key k : string) :
  connKey c = Some key → aggregateStep m c = Some m1 →
  map_get m1 k =
  if String.eqb key k
  then Some (accumulate c (default (newAccumulator c) (map_get m key)))
  else map_get m k.
Proof.
  intros Hkey. unfold aggregateStep. rewrite Hkey. simpl. intros [= <-].
  rewrite map_get_update. destruct (String.eqb key k) eqn:E.
  - destruct (map_has m key) eqn:Hhas.
    + destruct (map_get m key) eqn:Hget; [done|].
      apply map_has_get in Hget. congruence.
    + apply map_has_get in Hhas. rewrite map_get_set_new, Hhas.
      by rewrite String.eqb_refl.
  - destruct (map_has m key) eqn:Hhas; [done|].
    rewrite map_get_set_new, E. by destruct (map_get m k).
Qed.

Lemma aggregateStep_keys (m m1 : list (string * Agg.t)) (c : Connection)
    (key : string) :
  connKey c = Some key → aggregateStep m c = Some m1 →
  map fst m1 = if map_has m key then map fst m else map fst m ++ [key].
Proof.
  intros Hkey. unfold aggregateStep. rewrite Hkey. simpl. intros [= <-].
  rewrite map_update_keys. destruct (map_has m key); [done|].
  unfold map_set_new. by rewrite map_app.
Qed.

Lemma members_cons (k : string) (c : Connection) (l : list Connection) :
  members k (c :: l) =
  if bool_decide (connKey c = Some k) then c :: members k l else members k l.
Proof. reflexivity. Qed.

Lemma forEachM_cons {S A : Type} (f : S → A → option S) (s : S) (x : A) (l : list A) :
  forEachM f s (x :: l) = f s x ≫= fun s' => forEachM f s' l.
Proof. reflexivity. Qed.

Lemma forEachM_get (l : list Connection) (m m' : list (string * Agg.t)) (k : string) :
  forEachM aggregateStep m l = Some m' →
  map_get m' k =
  match map_get m k, members k l with
  | Some a, ms => Some (addMembers a ms)
  | None, [] => None
  | None, c :: ms => Some (addMembers (newAccumulator c) (c :: ms))
  end.
Proof.
  revert m. induction l as [|c l IH]; intros m.
  - intros [= <-]. by destruct (map_get m k).
  - rewrite forEachM_cons.
    destruct (aggregateStep m c) as [m1|] eqn:Hstep; simpl; [|done].
    intros Hrun. rewrite (IH _ Hrun). clear IH Hrun.
    destruct (connKey c) as [key|] eqn:Hkey;
      [|unfold aggregateStep in Hstep; by rewrite Hkey in Hstep].
    rewrite (aggregateStep_get _ _ _ _ k Hkey Hstep).
    destruct (String.eqb key k) eqn:E.
    + apply String.eqb_eq in E as ->. rewrite bool_decide_eq_true_2 by done.
      by destruct (map_get m k).
    + apply String.eqb_neq in E. rewrite bool_decide_eq_false_2 by congruence.
      done.
Qed.

Lemma forEachM_NoDup (l : list Connection) (m m' : list (string * Agg.t)) :
  NoDup (map fst m) → forEachM aggregateStep m l = Some m' → NoDup (map fst m').
Proof.
  revert m. induction l as [|c l IH]; intros m Hnd; simpl.
  - by intros [= <-].
  - destruct (aggregateStep m c) as [m1|] eqn:Hstep; simpl; [|done].
    apply IH. destruct (connKey c) as [key|] eqn:Hkey;
      [|unfold aggregateStep in Hstep; by rewrite Hkey in Hstep].
    rewrite (aggregateStep_keys _ _ _ _ Hkey Hstep).
    destruct (map_has m key) eqn:Hhas; [done|].
    apply NoDup_app. split; [done|]. split; [|apply NoDup_singleton].
    intros x Hx ->%list_elem_of_singleton.
    apply map_has_keys in Hx. congruence.
Qed.

Lemma connKey_defined (c : Connection) :
  hasPositions c = true → is_Some (connKey c).
Proof.
  unfold hasPositions, connKey, posStr.
  destruct (_sourcePos c), (_targetPos c); simpl; done.
Qed.

Lemma forEachM_total (l : list Connection) (m : list (string * Agg.t)) :
  Forall (fun c => hasPositions c = true) l →
  is_Some (forEachM aggregateStep m l).
Proof.
  intros Hl. revert m. induction Hl as [|c l Hc Hl IH]; intros m; [done|].
  destruct (connKey_defined c Hc) as [key Hkey].
  rewrite forEachM_cons. unfold aggregateStep. rewrite Hkey. simpl. apply IH.
Qed.

(** The aggregation pass of [preprocessData] never raises: it only sees
    connections that passed the position filter. *)
Lemma preprocessData_returns (pointsJson : Data) (connectionsJson : list JsVal) :
  is_Some (preprocessData pointsJson connectionsJson).
Proof.
  unfold preprocessData, aggregateConnections, aggregatedConnectionsMap.
  destruct (forEachM_total (preprocessConnections pointsJson connectionsJson) [])
    as [m ->]; [|done].
  apply Forall_forall. intros r Hr. unfold preprocessConnections in Hr.
  by apply processConnections_elem in Hr as (c & _ & _ & _ & Hpos).
Qed.

Lemma addMembers_count (a : Agg.t) (ms : list Connection) :
  Agg._count (addMembers a ms) = (Agg._count a + length ms)%nat.
Proof.
  revert a. induction ms as [|c ms IH]; intros a; simpl; [lia|].
  unfold addMembers in *. simpl. rewrite IH. simpl. lia.
Qed.

Lemma addMembers_endpoints (a : Agg.t) (ms : list Connection) :
  Agg.from (addMembers a ms) = Agg.from a ∧
  Agg.to (addMembers a ms) = Agg.to a ∧
  Agg._sourcePos (addMembers a ms) = Agg._sourcePos a ∧
  Agg._targetPos (addMembers a ms) = Agg._targetPos a ∧
  Agg._sourcePinType (addMembers a ms) = Agg._sourcePinType a ∧
  Agg._targetPinType (addMembers a ms) = Agg._targetPinType a.
Proof.
  revert a. induction ms as [|c ms IH]; intros a; [done|].
  unfold addMembers in *. simpl. by destruct (IH (accumulate c a)) as (-> & -> & -> & -> & -> & ->).
Qed.

Lemma sort2_sym (a b : string) : sort2 a b = sort2 b a.
Proof.
  unfold sort2, String.ltb. rewrite (String.compare_antisym a b).
  destruct (String.compare b a) eqn:E; simpl; try done.
  by apply String.compare_eq_iff in E as ->.
Qed.

Lemma sort2_sorted (a b : string) :
  ∃ x y, sort2 a b = [x; y] ∧ String.leb x y = true.
Proof.
  unfold sort2, String.ltb, String.leb.
  destruct (String.compare b a) eqn:E; [exists a, b|exists b, a|exists a, b];
    (split; [done|]).
  - apply String.compare_eq_iff in E as ->.
    pose proof (String.compare_antisym a a) as H.
    by destruct (String.compare a a).
  - by rewrite E.
  - rewrite String.compare_antisym, E. done.
Qed.

Lemma filter_length_one {A : Type} (P : A → bool) (l : list A) (i : nat) (x : A) :
  l !! i = Some x → P x = true → (1 ≤ length (List.filter P l))%nat.
Proof.
  revert i. induction l as [|a r IH]; intros [|i]; simpl; try done.
  - intros [= ->] ->. simpl. lia.
  - intros Hx HP. specialize (IH _ Hx HP). destruct (P a); simpl; lia.
Qed.

Lemma filter_length_two {A : Type} (P : A → bool) (l : list A) (i j : nat) (x y : A) :
  (i < j)%nat → l !! i = Some x → l !! j = Some y → P x = true → P y = true →
  (2 ≤ length (List.filter P l))%nat.
Proof.
  revert i j. induction l as [|a r IH]; intros [|i] [|j]; simpl; try done; try lia.
  - intros _ [= ->] Hy -> HPy. simpl.
    pose proof (filter_length_one P r j y Hy HPy). lia.
  - intros Hlt Hx Hy HPx HPy. assert (i < j)%nat as Hlt' by lia.
    specialize (IH _ _ Hlt' Hx Hy HPx HPy). destruct (P a); simpl; lia.
Qed.

(** C3. In a resolved list, two connections between the same unordered
    pair of coordinates (recorded in the same or in opposite directions)
    have the same key - the two serialized coordinate strings, sorted and
    joined - and the aggregation holds exactly one entry for that key, whose
    member count is the number of connections of the list with that key,
    hence at least 2. *)
Theorem aggregate_merges_directions
    (conns : list Connection) (i j : nat) (c1 c2 : Connection) :
  Forall (fun c => hasPositions c = true) conns →
  conns !! i = Some c1 → conns !! j = Some c2 → i ≠ j →
  same_unordered_pair c1 c2 →
  ∃ m key agg,
    aggregatedConnectionsMap conns = Some m ∧
    aggregateConnections conns = Some (map snd m) ∧
    connKey c1 = Some key ∧ connKey c2 = Some key ∧
    (∃ s t, posStr (_sourcePos c1) = Some s ∧ posStr (_targetPos c1) = Some t ∧
            key = join "|" (sort2 s t) ∧ sort2 s t = sort2 t s ∧
            ∃ x y, sort2 s t = [x; y] ∧ String.leb x y = true) ∧
    List.filter (fun e => String.eqb (fst e) key) m = [(key, agg)] ∧
    Agg._count agg = length (members key conns) ∧
    (2 ≤ Agg._count agg)%nat.
Proof.
  intros Hall Hi Hj Hne Hpair.
  destruct (forEachM_total conns [] Hall) as [m Hm].
  assert (Hc1 : hasPositions c1 = true).
  { rewrite Forall_forall in Hall. apply Hall. by eapply list_elem_of_lookup_2. }
  unfold hasPositions in Hc1.
  destruct (_sourcePos c1) as [ps|] eqn:Hps; [|done].
  destruct (_targetPos c1) as [pt|] eqn:Hpt; [|done]. clear Hc1.
  set (s := join "," (map Number_toString ps)).
  set (t := join "," (map Number_toString pt)).
  set (key := join "|" (sort2 s t)).
  assert (Hk1 : connKey c1 = Some key).
  { unfold connKey. by rewrite Hps, Hpt. }
  assert (Hk2 : connKey c2 = Some key).
  { unfold connKey. destruct Hpair as [[<- <-]|[Hs Ht]].
    - by rewrite Hps, Hpt.
    - rewrite <- Hs, <- Ht, Hps, Hpt. simpl. fold s t. by rewrite (sort2_sym t s). }
  assert (Hlen : (2 ≤ length (members key conns))%nat).
  { unfold members. destruct (Nat.lt_total i j) as [Hlt|[?|Hlt]]; [|done|].
    - eapply (filter_length_two _ conns i j c1 c2); try done;
        by apply bool_decide_eq_true_2.
    - eapply (filter_length_two _ conns j i c2 c1); try done;
        by apply bool_decide_eq_true_2. }
  pose proof (forEachM_get conns [] m key Hm) as Hget. simpl in Hget.
  destruct (members key conns) as [|c ms] eqn:Hms; [simpl in Hlen; lia|].
  exists m, key, (addMembers (newAccumulator c) (c :: ms)).
  split; [done|].
  split; [unfold aggregateConnections, aggregatedConnectionsMap; by rewrite Hm|].
  split; [done|]. split; [done|]. split.
  { exists s, t. split; [done|]. split; [done|]. split; [done|].
    split; [apply sort2_sym|apply sort2_sorted]. }
  split.
  { apply map_get_filter; [|done].
    eapply forEachM_NoDup; [|exact Hm]. simpl. apply NoDup_nil_2. }
  rewrite addMembers_count. simpl in *. split; [|lia].
  by destruct (members key conns); simplify_eq.
Qed.

Lemma getAggregatedFilterValue_equiv (fs : FilterState) (a b : Agg.t) :
  agg_equiv a b → getAggregatedFilterValue fs a = getAggregatedFilterValue fs b.
Proof.
  intros (_ & _ & Hct & Hier & _ & Hsp & Htp & Hh1 & Hh2).
  unfold getAggregatedFilterValue. by rewrite Hct, Hier, Hsp, Htp, Hh1, Hh2.
Qed.

Lemma newAccumulator_equiv (c1 c2 : Connection) :
  same_core c1 c2 → same_groups c1 c2 →
  agg_equiv (newAccumulator c1) (newAccumulator c2).
Proof. intros (? & ? & _) [? ?]. by repeat split. Qed.

Lemma accumulate_equiv (c1 c2 : Connection) (a b : Agg.t) :
  same_core c1 c2 → agg_equiv a b → agg_equiv (accumulate c1 a) (accumulate c2 b).
Proof.
  intros (_ & _ & Hct & Hier & Hh1 & Hh2) (? & ? & Hcts & Hiers & Hn & ? & ? & Ha1 & Ha2).
  repeat split; simpl; try done.
  - by rewrite Hct, Hcts.
  - by rewrite Hier, Hiers.
  - by rewrite Hn.
  - by rewrite Hh1, Ha1.
  - by rewrite Hh2, Ha2.
Qed.

Lemma same_core_connKey (c1 c2 : Connection) :
  same_core c1 c2 → connKey c1 = connKey c2.
Proof. intros (Hs & Ht & _). unfold connKey. by rewrite Hs, Ht. Qed.

Lemma entry_equiv_has (m1 m2 : list (string * Agg.t)) (k : string) :
  Forall2 entry_equiv m1 m2 → map_has m1 k = map_has m2 k.
Proof.
  induction 1 as [|[k1 a1] [k2 a2] r1 r2 [Hk _] _ IH]; simpl in *; [done|].
  by rewrite Hk, IH.
Qed.

Lemma entry_equiv_update (m1 m2 : list (string * Agg.t)) (k : string)
    (f g : Agg.t → Agg.t) :
  (∀ a b, agg_equiv a b → agg_equiv (f a) (g b)) →
  Forall2 entry_equiv m1 m2 →
  Forall2 entry_equiv (map_update f m1 k) (map_update g m2 k).
Proof.
  intros Hfg. induction 1 as [|[k1 a1] [k2 a2] r1 r2 [Hk Ha] Hr IH]; simpl in *;
    [constructor|]. subst k2.
  destruct (String.eqb k1 k); constructor; try done. split; [done|]. by apply Hfg.
Qed.

Lemma aggregation_lockstep (l1 l2 : list Connection) (seen : list (option string))
    (m1 m2 m1' : list (string * Agg.t)) :
  agree_except_later seen l1 l2 →
  Forall2 entry_equiv m1 m2 →
  (∀ k, Some k ∈ seen → k ∈ map fst m1) →
  forEachM aggregateStep m1 l1 = Some m1' →
  ∃ m2', forEachM aggregateStep m2 l2 = Some m2' ∧ Forall2 entry_equiv m1' m2'.
Proof.
  revert l2 seen m1 m2. induction l1 as [|c1 r1 IH]; intros [|c2 r2] seen m1 m2;
    try done.
  - intros _ Hm _ [= <-]. by exists m2.
  - intros (Hcore & Hfirst & Hrest) Hm Hseen Hrun.
    pose proof (same_core_connKey _ _ Hcore) as Hk.
    rewrite forEachM_cons in Hrun. unfold aggregateStep in Hrun.
    destruct (connKey c1) as [key|] eqn:Hkey; simpl in Hrun; [|done].
    set (f := fun (c : Connection) (m : list (string * Agg.t)) =>
                map_update (accumulate c)
                  (if map_has m key then m
                   else map_set_new m key (newAccumulator c)) key).
    destruct (IH r2 (Some key :: seen) (f c1 m1) (f c2 m2)) as (m2' & Hrun2 & Heq);
      [done| | |done|].
    + apply entry_equiv_update; [intros a b; by apply accumulate_equiv|].
      rewrite <- (entry_equiv_has m1 m2 key Hm).
      destruct (map_has m1 key) eqn:Hhas; [done|].
      apply Forall2_app; [done|]. constructor; [|constructor].
      split; [done|]. apply newAccumulator_equiv; [done|].
      apply Hfirst. intros Hin%Hseen%map_has_keys. congruence.
    + intros k Hin. unfold f. rewrite map_update_keys.
      apply elem_of_cons in Hin as [[= ->]|Hin].
      * destruct (map_has m1 key) eqn:Hhas; [by apply map_has_keys|].
        unfold map_set_new. rewrite map_app. apply elem_of_app. right. by left.
      * apply Hseen in Hin. destruct (map_has m1 key); [done|].
        unfold map_set_new. rewrite map_app. apply elem_of_app. by left.
    + exists m2'. split; [|done].
      rewrite forEachM_cons. unfold aggregateStep. rewrite <- Hk. simpl. exact Hrun2.
Qed.

Lemma entry_equiv_values (fs : FilterState) (m1 m2 : list (string * Agg.t)) :
  Forall2 entry_equiv m1 m2 →
  map (getAggregatedFilterValue fs) (map_values m1) =
  map (getAggregatedFilterValue fs) (map_values m2).
Proof.
  induction 1 as [|e1 e2 r1 r2 [_ Ha] _ IH]; simpl; [done|].
  by rewrite IH, (getAggregatedFilterValue_equiv fs _ _ Ha).
Qed.

(** C10. The endpoint references, positions and endpoint groups of an
    aggregate are those of the first connection of the resolved list that
    has its key; consequently two resolved lists that agree, member by
    member, on coordinates, category, tags and hub flags, and on the
    endpoint groups of every member that is the first of its key, produce
    aggregates with the same visibility under every filter state. *)
Theorem aggregate_endpoints_from_first :
  (∀ conns m key agg,
     aggregatedConnectionsMap conns = Some m → (key, agg) ∈ m →
     ∃ first, head (members key conns) = Some first ∧
       Agg.from agg = from first ∧ Agg.to agg = to first ∧
       Agg._sourcePos agg = _sourcePos first ∧
       Agg._targetPos agg = _targetPos first ∧
       Agg._sourcePinType agg = _sourcePinType first ∧
       Agg._targetPinType agg = _targetPinType first) ∧
  (∀ l1 l2 aggs1,
     agree_except_later [] l1 l2 →
     aggregateConnections l1 = Some aggs1 →
     ∃ aggs2, aggregateConnections l2 = Some aggs2 ∧
       ∀ fs, map (getAggregatedFilterValue fs) aggs1 =
             map (getAggregatedFilterValue fs) aggs2).
Proof.
  split.
  - intros conns m key agg Hm Hin.
    apply map_get_entry in Hin;
      [|eapply forEachM_NoDup; [|exact Hm]; apply NoDup_nil_2].
    rewrite (forEachM_get conns [] m key Hm) in Hin. cbn [map_get] in Hin.
    destruct (members key conns) as [|first ms]; [done|].
    injection Hin as <-. exists first. split; [done|].
    by destruct (addMembers_endpoints (accumulate first (newAccumulator first)) ms)
      as (-> & -> & -> & -> & -> & ->).
  - intros l1 l2 aggs1 Hagree. unfold aggregateConnections, aggregatedConnectionsMap.
    destruct (forEachM aggregateStep [] l1) as [m1|] eqn:Hrun; simpl; [|done].
    intros [= <-].
    destruct (aggregation_lockstep l1 l2 [] [] [] m1 Hagree) as (m2 & -> & Heq);
      [constructor|by intros k ?%elem_of_nil|done|].
    exists (map_values m2). split; [done|]. intros fs. by apply entry_equiv_values.
Qed.



(** ** Properties of the co-location grouper *)

Lemma addPinByLocation_get (m : list (string * list Feature)) (p : Feature) (k : string) :
  map_get (addPinByLocation m p) k =
  if String.eqb (locationKey p) k
  then Some (default [] (map_get m (locationKey p)) ++ [p])
  else map_get m k.
Proof.
  unfold addPinByLocation. rewrite map_get_update.
  destruct (String.eqb (locationKey p) k) eqn:E.
  - destruct (map_has m (locationKey p)) eqn:Hhas.
    + destruct (map_get m (locationKey p)) eqn:Hget; [done|].
      apply map_has_get in Hget. congruence.
    + apply map_has_get in Hhas. rewrite map_get_set_new, Hhas.
      by rewrite String.eqb_refl.
  - destruct (map_has m (locationKey p)) eqn:Hhas; [done|].
    rewrite map_get_set_new, E. by destruct (map_get m k).
Qed.

Lemma addPinByLocation_NoDup (m : list (string * list Feature)) (p : Feature) :
  NoDup (map fst m) → NoDup (map fst (addPinByLocation m p)).
Proof.
  intros Hnd. unfold addPinByLocation. rewrite map_update_keys.
  destruct (map_has m (locationKey p)) eqn:Hhas; [done|].
  unfold map_set_new. rewrite map_app. simpl. apply NoDup_app.
  split; [done|]. split; [|apply NoDup_singleton].
  intros x Hx ->%list_elem_of_singleton. apply map_has_keys in Hx. congruence.
Qed.

Lemma pinsByLocation_NoDup (pins : list Feature) (m : list (string * list Feature)) :
  NoDup (map fst m) → NoDup (map fst (foldl addPinByLocation m pins)).
Proof.
  revert m. induction pins as [|p r IH]; intros m Hnd; simpl; [done|].
  by apply IH, addPinByLocation_NoDup.
Qed.

Lemma pinsByLocation_get (pins : list Feature) (m : list (string * list Feature))
    (k : string) :
  map_get (foldl addPinByLocation m pins) k =
  match map_get m k, located k pins with
  | Some g, ms => Some (g ++ ms)
  | None, [] => None
  | None, ms => Some ms
  end.
Proof.
  revert m. induction pins as [|p r IH]; intros m.
  - simpl. destruct (map_get m k); [by rewrite app_nil_r|done].
  - change (foldl addPinByLocation m (p :: r))
      with (foldl addPinByLocation (addPinByLocation m p) r).
    rewrite IH, addPinByLocation_get. unfold located. simpl.
    destruct (String.eqb (locationKey p) k) eqn:E.
    + apply String.eqb_eq in E as <-. rewrite bool_decide_eq_true_2 by done.
      destruct (map_get m (locationKey p)); simpl; [by rewrite <- app_assoc|done].
    + apply String.eqb_neq in E. rewrite bool_decide_eq_false_2 by done. done.
Qed.

Lemma pinsByLocation_groups (pins group : list Feature) :
  group ∈ map_values (pinsByLocation pins) →
  ∃ k, group = located k pins ∧ group ≠ [].
Proof.
  unfold map_values. intros ([k g] & -> & Hin)%list_elem_of_fmap. simpl.
  apply map_get_entry in Hin; [|apply pinsByLocation_NoDup, NoDup_nil_2].
  unfold pinsByLocation in Hin. rewrite pinsByLocation_get in Hin. simpl in Hin.
  exists k. destruct (located k pins); [done|]. by injection Hin as <-.
Qed.

Lemma pinsByLocation_located (pins : list Feature) (p : Feature) :
  p ∈ pins →
  located (locationKey p) pins ∈ map_values (pinsByLocation pins).
Proof.
  intros Hp. unfold map_values.
  apply (list_elem_of_fmap_2' snd _ (locationKey p, located (locationKey p) pins));
    [|done].
  apply map_get_entry; [apply pinsByLocation_NoDup, NoDup_nil_2|].
  unfold pinsByLocation. rewrite pinsByLocation_get. simpl.
  destruct (located (locationKey p) pins) eqn:E; [|done].
  assert (Hin : p ∈ located (locationKey p) pins).
  { unfold located. apply list_elem_of_In, filter_In. split; [by apply list_elem_of_In|].
    by apply bool_decide_eq_true_2. }
  rewrite E in Hin. by apply elem_of_nil in Hin.
Qed.

Lemma setLabelOffset_base (off : nat → float * float) (l : list Feature) :
  map base (imap (fun i p => setLabelOffset p (off i)) l) = map base l.
Proof.
  revert off. induction l as [|p r IH]; intros off; [done|].
  simpl. f_equal. apply (IH (off ∘ S)).
Qed.

Lemma assignLabelOffsets_base (g : PinGroup) :
  map base (originalPins (assignLabelOffsets g)) = map base (originalPins g).
Proof.
  unfold assignLabelOffsets. destruct (1 <? count g)%nat; [|done]. simpl.
  apply setLabelOffset_base.
Qed.

(** Consecutive mid-angles of a group of [N] members differ by [360/N]
    degrees to within [tol] degrees, the doubles taken as the rationals
    they denote. *)
Definition spacing_within (tol : Q) (N i : nat) : bool :=
  match float_value (midAngle N i), float_value (midAngle N (S i)) with
  | Some a, Some b =>
      let d := (b - a - (360 # Pos.of_nat N))%Q in
      Qle_bool (- tol) d && Qle_bool d tol
  | _, _ => false
  end.

Lemma spacing_checked :
  forallb (fun N => forallb (spacing_within (1 # 10 ^ 13) N) (seq 0 (N - 1)))
          (seq 2 99) = true.
Proof. vm_compute. reflexivity. Qed.

(** C7 (as amended). Points with identical coordinates are members of one
    and the same group.  A group of N members records N as its count; when
    N > 1 its i-th member (i = 0..N-1) carries the label offset
    45 * (cos a, sin a), a being the angle
    -90 + i*(360/N) + (360/N)/2 in degrees, computed in double precision
    and converted to radians.  Consecutive angles differ by 360/N degrees
    up to rounding: to within 1e-13 degrees for groups of up to 100
    members; for N = 2 the two angles are exactly 0 and 180 degrees.  The
    member of a single-member group carries no computed offset: it is the
    input point with its group attached. *)
Theorem colocated_label_offsets (allPoints : list Feature) :
  (∀ p q, p ∈ allPoints → q ∈ allPoints →
     coordinates (geometry p) = coordinates (geometry q) →
     ∃ g, g ∈ overlappingPins allPoints ∧
          base p ∈ map base (originalPins g) ∧
          base q ∈ map base (originalPins g)) ∧
  (∀ g, g ∈ overlappingPins allPoints →
     count g = length (originalPins g) ∧ (1 ≤ count g)%nat ∧
     ((1 < count g)%nat →
        ∀ i p, originalPins g !! i = Some p →
          let a := (-90 + float_of_nat i * (360 / float_of_nat (count g))
                    + (360 / float_of_nat (count g)) / 2)%float in
          _labelOffset p =
            Some ((45 * Math_cos (a * (Math_PI / 180)))%float,
                  (45 * Math_sin (a * (Math_PI / 180)))%float)) ∧
     (count g = 1%nat →
        ∀ p, p ∈ originalPins g → ∃ p0, p0 ∈ allPoints ∧ p = attachPinType p0)) ∧
  (∀ N i, (2 ≤ N ≤ 100)%nat → (S i < N)%nat →
          spacing_within (1 # 10 ^ 13) N i = true) ∧
  (midAngle 2 0 = 0%float ∧ midAngle 2 1 = 180%float).
Proof.
  split; [|split; [|split]].
  - intros p q Hp Hq Hcoords.
    set (pins := map attachPinType allPoints).
    assert (Hp' : attachPinType p ∈ pins) by (by apply list_elem_of_fmap_2).
    assert (Hq' : attachPinType q ∈ pins) by (by apply list_elem_of_fmap_2).
    assert (Hkey : locationKey (attachPinType q) = locationKey (attachPinType p)).
    { unfold locationKey. simpl. by rewrite Hcoords. }
    set (group := located (locationKey (attachPinType p)) pins).
    exists (assignLabelOffsets (makePinGroup group)). split.
    + unfold overlappingPins. apply list_elem_of_fmap_2, list_elem_of_fmap_2.
      by apply pinsByLocation_located.
    + rewrite assignLabelOffsets_base. simpl.
      split; [change (base p) with (base (attachPinType p))
             |change (base q) with (base (attachPinType q))];
        apply list_elem_of_fmap_2, list_elem_of_In, filter_In;
        (split; [by apply list_elem_of_In|by apply bool_decide_eq_true_2]).
  - intros g Hg. unfold overlappingPins in Hg.
    apply list_elem_of_fmap in Hg as (g0 & -> & Hg0).
    apply list_elem_of_fmap in Hg0 as (group & -> & Hgroup).
    apply pinsByLocation_groups in Hgroup as (k & Hgroup & Hne).
    unfold assignLabelOffsets. simpl.
    destruct (1 <? length group)%nat eqn:Hlt; simpl.
    + apply Nat.ltb_lt in Hlt. split; [by rewrite length_imap|]. split; [lia|].
      split; [|lia]. intros _ i p Hi.
      apply list_lookup_imap_Some in Hi as (p0 & _ & ->). done.
    + apply Nat.ltb_ge in Hlt. split; [done|]. split.
      { destruct group; [done|simpl; lia]. }
      split; [lia|]. intros _ p Hin. rewrite Hgroup in Hin.
      apply list_elem_of_In, filter_In in Hin as [Hin _].
      apply in_map_iff in Hin as (p0 & <- & Hin). exists p0.
      by rewrite list_elem_of_In.
  - intros N i HN Hi. pose proof spacing_checked as Hall.
    rewrite forallb_forall in Hall.
    assert (HinN : In N (seq 2 99)) by (apply in_seq; lia).
    specialize (Hall N HinN). rewrite forallb_forall in Hall.
    apply Hall, in_seq. lia.
  - split; vm_compute; reflexivity.
Qed.

(** * Further functions of the engine *)

(** ** Styling of aggregated connections *)

(** [d?._connTypes?.length ?? 0] on an aggregate. *)
Definition getAggregatedColor (d : Agg.t) : RGBA :=
  let count := length (Agg._connTypes d) in
  if (5 <=? count)%nat then (255, 0, 0, 200)
  else if (3 <=? count)%nat then (255, 165, 0, 160)
  else if (2 <=? count)%nat then (255, 255, 0, 170)
  else (200, 200, 200, 150).

Definition getAggregatedWidth (d : Agg.t) : nat :=
  let count := length (Agg._connTypes d) in
  if (count =? 1)%nat then 2
  else if (count =? 2)%nat then 9
  else if (3 <=? count)%nat then 25
  else 0.

(** ** Filters of the pin layers *)

(** [activePointTypes.has(t)] for a value that may be [undefined]. *)
Definition pointTypes_has (s : list PointType) (t : option PointType) : bool :=
  match t with
  | Some t => bool_decide (t ∈ s)
  | None => false
  end.

(** [getFilterValue] of the [pins] layer. *)
Definition getPinGroupFilterValue (fs : FilterState) (d : PinGroup) : nat :=
  if existsb (fun type => pointTypes_has (activePointTypes fs) type) (pinTypes d)
  then 1 else 0.

(** [getFilterValue] of the [pin-labels] layer. *)
Definition getPinLabelFilterValue (fs : FilterState) (d : Feature) : nat :=
  if pointTypes_has (activePointTypes fs) (_pinType d) then 1 else 0.

(** ** Filter controls

    The legends of [addMultiFilterControls] (their keys), the operations of
    [Set] the handlers use, and the handlers themselves as a transition
    function on the filter state. *)

Definition connItems : list string :=
  ["N"; "C"; "RT"; "HF"; "TR"; "SAT"; "HF L"; "U L"; "SL"].

Definition pinItems : list PointType :=
  [ PINK_GROUP; VIOLET_GROUP; RED_GROUP; TURQUOISE_GROUP; YELLOW_GROUP;
    GREEN_GROUP; PURPLE_GROUP; ORANGE_GROUP; BLUE_GROUP; WHITE_GROUP;
    OKC_GROUP; MAGENTA_GROUP; GREY_GROUP ].

Definition ierItems : list string :=
  ["LOCATION"; "LOGISTICS"; "NRP"; "SIT"; "MESSAGE"; "DEFAULT"].

(** [set.delete(x)] *)
Definition set_delete (s : list string) (x : string) : list string :=
  List.filter (fun y => negb (String.eqb y x)) s.

Definition pointTypes_add (s : list PointType) (x : PointType) : list PointType :=
  if bool_decide (x ∈ s) then s else s ++ [x].

Definition pointTypes_delete (s : list PointType) (x : PointType) : list PointType :=
  List.filter (fun y => negb (bool_decide (y = x))) s.

Definition with_activeTypes (fs : FilterState) (t : list string) : FilterState :=
  mkFilterState t (activePointTypes fs) (activeIerTypes fs)
    (hideHubConnections fs) (hideHub2Connections fs)
    (showAggregatedConnections fs) (showConnectionLabels fs) (showPinLabels fs).

Definition with_activePointTypes (fs : FilterState) (p : list PointType)
  : FilterState :=
  mkFilterState (activeTypes fs) p (activeIerTypes fs)
    (hideHubConnections fs) (hideHub2Connections fs)
    (showAggregatedConnections fs) (showConnectionLabels fs) (showPinLabels fs).

Definition with_activeIerTypes (fs : FilterState) (i : list string) : FilterState :=
  mkFilterState (activeTypes fs) (activePointTypes fs) i
    (hideHubConnections fs) (hideHub2Connections fs)
    (showAggregatedConnections fs) (showConnectionLabels fs) (showPinLabels fs).

(** The events the listeners react to; the three steps of
    [runDemonstration] are separated by delays and count as events of
    their own. *)
Inductive Event : Type :=
| AllConnClick
| Hub1Change (checked : bool)
| Hub2Change (checked : bool)
| ConnChange (key : string) (checked : bool)
| ConnLabelClick
| AllPinsClick
| AllIerClick
| IerChange (key : string) (checked : bool)
| AggregatedChange (checked : bool)
| PinLabelClick
| PinChange (key : PointType) (checked : bool)
| DemoStep1
| DemoStep2
| DemoStep3.

Definition handle (fs : FilterState) (e : Event) : FilterState :=
  match e with
  | AllConnClick =>
      let isAllActive := (length (activeTypes fs) =? length connItems)%nat in
      with_activeTypes fs (if isAllActive then [] else foldl set_add [] connItems)
  | Hub1Change checked =>
      mkFilterState (activeTypes fs) (activePointTypes fs) (activeIerTypes fs)
        checked (hideHub2Connections fs)
        (showAggregatedConnections fs) (showConnectionLabels fs) (showPinLabels fs)
  | Hub2Change checked =>
      mkFilterState (activeTypes fs) (activePointTypes fs) (activeIerTypes fs)
        (hideHubConnections fs) checked
        (showAggregatedConnections fs) (showConnectionLabels fs) (showPinLabels fs)
  | ConnChange key checked =>
      with_activeTypes fs
        (if checked then set_add (activeTypes fs) key
         else set_delete (activeTypes fs) key)
  | ConnLabelClick =>
      mkFilterState (activeTypes fs) (activePointTypes fs) (activeIerTypes fs)
        (hideHubConnections fs) (hideHub2Connections fs)
        (showAggregatedConnections fs) (negb (showConnectionLabels fs))
        (showPinLabels fs)
  | AllPinsClick =>
      let isAllActive :=
        (length (activePointTypes fs) =? length ALL_POINT_TYPES)%nat in
      with_activePointTypes fs
        (if isAllActive then [] else foldl pointTypes_add [] ALL_POINT_TYPES)
  | AllIerClick =>
      let isAllActive := (length (activeIerTypes fs) =? length ierItems)%nat in
      with_activeIerTypes fs (if isAllActive then [] else foldl set_add [] ierItems)
  | IerChange key checked =>
      with_activeIerTypes fs
        (if checked then set_add (activeIerTypes fs) key
         else set_delete (activeIerTypes fs) key)
  | AggregatedChange checked =>
      mkFilterState (activeTypes fs) (activePointTypes fs) (activeIerTypes fs)
        (hideHubConnections fs) (hideHub2Connections fs)
        checked (showConnectionLabels fs) (showPinLabels fs)
  | PinLabelClick =>
      mkFilterState (activeTypes fs) (activePointTypes fs) (activeIerTypes fs)
        (hideHubConnections fs) (hideHub2Connections fs)
        (showAggregatedConnections fs) (showConnectionLabels fs)
        (negb (showPinLabels fs))
  | PinChange key checked =>
      with_activePointTypes fs
        (if checked then pointTypes_add (activePointTypes fs) key
         else pointTypes_delete (activePointTypes fs) key)
  | DemoStep1 =>
      with_activePointTypes (with_activeTypes fs []) (pointTypes_add [] OKC_GROUP)
  | DemoStep2 =>
      with_activeTypes
        (with_activePointTypes fs (pointTypes_add (activePointTypes fs) RED_GROUP))
        (set_add (activeTypes fs) "RT")
  | DemoStep3 =>
      with_activeTypes
        (with_activePointTypes fs (pointTypes_add (activePointTypes fs) BLUE_GROUP))
        (set_add (activeTypes fs) "TR")
  end.

(** A checkbox exists for each key of its legend and for no other key. *)
Definition wired (e : Event) : Prop :=
  match e with
  | ConnChange key _ => key ∈ connItems
  | IerChange key _ => key ∈ ierItems
  | _ => True
  end.

(** The filter state [initMap] starts from. *)
Definition initialState : FilterState :=
  mkFilterState [] [] [] false false false false false.

Definition reachable (fs : FilterState) : Prop :=
  ∃ events, Forall wired events ∧ fs = foldl handle initialState events.

(** ** Notions used to state the further properties *)

(** The last point of a list that is named [n]. *)
Definition lastNamed (n : string) (allPoints : list Feature) : option Feature :=
  last (List.filter (fun p => String.eqb (getPointName p) n) allPoints).

(** A filter state whose sets hold no value twice and whose categories and
    tags are keys of the legends. *)
Definition legend_state (fs : FilterState) : Prop :=
  NoDup (activeTypes fs) ∧ NoDup (activePointTypes fs) ∧
  NoDup (activeIerTypes fs) ∧
  (∀ x, x ∈ activeTypes fs → x ∈ connItems) ∧
  (∀ x, x ∈ activeIerTypes fs → x ∈ ierItems).

(** ** Further properties of the classifier *)

Lemma is_space_upper (c : ascii) : is_space (upper_char c) = is_space c.
Proof. destruct c as [[] [] [] [] [] [] [] []]; reflexivity. Qed.

Lemma toUpperCase_empty (s : string) : String.eqb (toUpperCase s) "" = String.eqb s "".
Proof. by destruct s. Qed.

Lemma trimStart_upper (s : string) :
  trimStart (toUpperCase s) = toUpperCase (trimStart s).
Proof.
  induction s as [|c r IH]; simpl; [done|].
  rewrite is_space_upper. by destruct (is_space c).
Qed.

Lemma trimEnd_upper (s : string) : trimEnd (toUpperCase s) = toUpperCase (trimEnd s).
Proof.
  induction s as [|c r IH]; simpl; [done|].
  rewrite is_space_upper, IH, toUpperCase_empty.
  by destruct (is_space c && String.eqb (trimEnd r) "").
Qed.

Lemma trimEnd_idem (s : string) : trimEnd (trimEnd s) = trimEnd s.
Proof.
  induction s as [|c r IH]; simpl; [done|].
  destruct (is_space c && String.eqb (trimEnd r) "") eqn:E; simpl; [done|].
  by rewrite IH, E.
Qed.

Lemma trimStart_trimEnd (s : string) :
  trimStart (trimEnd (trimStart s)) = trimEnd (trimStart s).
Proof.
  induction s as [|c r IH]; simpl; [done|].
  destruct (is_space c) eqn:E; [done|]. simpl. rewrite E. simpl. by rewrite E.
Qed.

Lemma trim_idem (s : string) : trim (trim s) = trim s.
Proof. unfold trim. by rewrite trimStart_trimEnd, trimEnd_idem. Qed.

Lemma trim_upper (s : string) : trim (toUpperCase s) = toUpperCase (trim s).
Proof. unfold trim. by rewrite trimStart_upper, trimEnd_upper. Qed.

(** X1. The category [getConnType] returns is in normal form: upper-casing
    or trimming it again changes nothing, and it is never the legacy
    spelling [N_TYPE]. *)
Theorem getConnType_normal_form (d : JsVal) :
  toUpperCase (getConnType d) = getConnType d ∧
  trim (getConnType d) = getConnType d ∧
  getConnType d ≠ "N_TYPE".
Proof.
  unfold getConnType.
  set (t := ToString (_ ?? JStr "")).
  destruct (String.eqb (toUpperCase (trim t)) "N_TYPE") eqn:E; [done|].
  split; [apply toUpperCase_idem|]. split.
  - by rewrite trim_upper, trim_idem.
  - by apply String.eqb_neq.
Qed.

(** ** Further properties of the point index *)

Lemma last_snoc_filter (n : string) (l : list Feature) (p : Feature) :
  lastNamed n (l ++ [p]) =
  if String.eqb (getPointName p) n then Some p else lastNamed n l.
Proof.
  unfold lastNamed. rewrite List.filter_app. simpl.
  destruct (String.eqb (getPointName p) n); [by rewrite last_snoc|].
  by rewrite app_nil_r.
Qed.

Lemma foldl_indexPoint_lookup (l : list Feature) (n : string) :
  n ≠ "" →
  foldl indexPoint ∅ l !! n = lastNamed n l.
Proof.
  intros Hn. induction l as [|p l IH] using rev_ind; [done|].
  rewrite foldl_app, last_snoc_filter. simpl. unfold indexPoint at 1.
  destruct (String.eqb (getPointName p) "") eqn:E.
  - apply String.eqb_eq in E. rewrite E.
    destruct (String.eqb "" n) eqn:E'; [|done].
    apply String.eqb_eq in E'. done.
  - destruct (String.eqb (getPointName p) n) eqn:E'.
    + apply String.eqb_eq in E' as ->. by rewrite lookup_insert_eq.
    + apply String.eqb_neq in E'. by rewrite lookup_insert_ne.
Qed.

(** X2. Lookup in the point index: the name [HUB2] always yields the
    injected hub point, also when a loaded point carries that name; the
    empty name yields nothing; every other name yields the last loaded point
    with that name, and nothing when no point has it. *)
Theorem buildPointMap_lookup (allPoints : list Feature) (n : string) :
  buildPointMap allPoints !! n =
  if String.eqb n "HUB2" then Some HUB2_POINT
  else if String.eqb n "" then None
  else lastNamed n allPoints.
Proof.
  unfold buildPointMap.
  destruct (String.eqb n "HUB2") eqn:E.
  { apply String.eqb_eq in E as ->. by rewrite lookup_insert_eq. }
  apply String.eqb_neq in E. rewrite lookup_insert_ne by done.
  destruct (String.eqb n "") eqn:E'.
  - apply String.eqb_eq in E' as ->.
    pose proof (buildPointMap_no_empty_name allPoints) as H.
    unfold buildPointMap in H. by rewrite lookup_insert_ne in H.
  - apply String.eqb_neq in E'. by apply foldl_indexPoint_lookup.
Qed.

(** ** Further properties of the connection resolver *)

Lemma near_self (a : Qc) : near (Some a) a = true.
Proof.
  unfold near. replace (a - a)%Qc with 0%Qc by ring. reflexivity.
Qed.

(** X4. Every resolved connection one of whose references is [HUB2] is
    flagged as touching hub 2, and is therefore hidden under every filter
    state that suppresses hub 2. *)
Theorem hub2_connections_suppressed
    (pointsJson : Data) (connectionsJson : list JsVal) (r : Connection) :
  r ∈ preprocessConnections pointsJson connectionsJson →
  getProp (raw r) "from" = JStr "HUB2" ∨ getProp (raw r) "to" = JStr "HUB2" →
  _isHub2 r = true ∧
  ∀ fs, hideHub2Connections fs = true → getConnectionFilterValue fs r = 0%nat.
Proof.
  intros (c & _ & _ & -> & Hpos)%processConnections_elem Hhub. simpl in Hhub.
  assert (Hflag : _isHub2 (resolveConnection
                    (buildPointMap (allPointsOf pointsJson)) c) = true).
  { unfold hasPositions in Hpos. simpl in *.
    set (pm := buildPointMap (allPointsOf pointsJson)) in *.
    assert (Hh : pm !! "HUB2" = Some HUB2_POINT)
      by (unfold pm, buildPointMap; by rewrite lookup_insert_eq).
    destruct (pointMap_get pm (getProp c "from")) as [p|] eqn:Hp; [|done].
    destruct (pointMap_get pm (getProp c "to")) as [q|] eqn:Hq;
      [|simpl in Hpos; by destruct (String.eqb (type (geometry p)) "Point")].
    assert (Hat : near (coordinates (geometry HUB2_POINT) !! 0%nat) HUB2_LNG &&
                  near (coordinates (geometry HUB2_POINT) !! 1%nat) HUB2_LAT = true)
      by (change (near (Some HUB2_LNG) HUB2_LNG && near (Some HUB2_LAT) HUB2_LAT
                  = true); by rewrite !near_self).
    unfold connectsToHub2, touches. simpl.
    destruct Hhub as [Hf|Ht].
    - rewrite Hf in Hp. simpl in Hp. rewrite Hh in Hp. injection Hp as <-.
      by rewrite Hat.
    - rewrite Ht in Hq. simpl in Hq. rewrite Hh in Hq. injection Hq as <-.
      rewrite Hat. apply orb_true_r. }
  split; [done|]. intros fs Hhide.
  unfold getConnectionFilterValue. rewrite Hhide, Hflag. simpl.
  by rewrite !andb_false_r.
Qed.

(** ** Further properties of the connection aggregator *)

Set Warnings "-clear-no-such-hyp".

Lemma set_add_elem (s : list string) (x y : string) :
  x ∈ set_add s y ↔ x ∈ s ∨ x = y.
Proof.
  unfold set_add. destruct (set_has s y) eqn:E.
  - apply set_has_elem in E. split; [by left|]. by intros [?| ->].
  - rewrite elem_of_app, list_elem_of_singleton. done.
Qed.

Lemma set_add_NoDup (s : list string) (y : string) : NoDup s → NoDup (set_add s y).
Proof.
  intros Hs. unfold set_add. destruct (set_has s y) eqn:E; [done|].
  apply NoDup_app. split; [done|]. split; [|apply NoDup_singleton].
  intros x Hx ->%list_elem_of_singleton. apply set_has_elem in Hx. congruence.
Qed.

Lemma set_add_length (s : list string) (y : string) :
  (length (set_add s y) ≤ S (length s))%nat.
Proof.
  unfold set_add. destruct (set_has s y); [lia|]. rewrite length_app. simpl. lia.
Qed.

Lemma foldl_set_add_elem (l s : list string) (x : string) :
  x ∈ foldl set_add s l ↔ x ∈ s ∨ x ∈ l.
Proof.
  clear Number_toString createPieIcon Math_cos Math_sin.
  revert s. induction l as [|y l IH]; intros s; simpl.
  - split; [by left|]. by intros [?|?%elem_of_nil].
  - rewrite IH, set_add_elem, elem_of_cons. naive_solver.
Qed.

Lemma foldl_set_add_NoDup (l s : list string) : NoDup s → NoDup (foldl set_add s l).
Proof.
  revert s. induction l as [|y l IH]; intros s Hs; simpl; [done|].
  by apply IH, set_add_NoDup.
Qed.

Lemma addMembers_cons (a : Agg.t) (c : Connection) (ms : list Connection) :
  addMembers a (c :: ms) = addMembers (accumulate c a) ms.
Proof. reflexivity. Qed.

Lemma addMembers_connTypes (ms : list Connection) (a : Agg.t) :
  NoDup (Agg._connTypes a) →
  NoDup (Agg._connTypes (addMembers a ms)) ∧
  (length (Agg._connTypes (addMembers a ms))
     ≤ length (Agg._connTypes a) + length ms)%nat ∧
  ∀ x, x ∈ Agg._connTypes (addMembers a ms) ↔
       x ∈ Agg._connTypes a ∨ ∃ c, c ∈ ms ∧ _connType c = x.
Proof.
  clear Number_toString createPieIcon Math_cos Math_sin.
  revert a. induction ms as [|c ms IH]; intros a Ha.
  - split; [done|]. split; [simpl; lia|]. intros x. split; [by left|].
    by intros [?|(c & ?%elem_of_nil & _)].
  - rewrite addMembers_cons.
    destruct (IH (accumulate c a)) as (Hnd & Hlen & Hin);
      [by apply set_add_NoDup|].
    split; [done|]. split.
    + simpl in *. pose proof (set_add_length (Agg._connTypes a) (_connType c)). lia.
    + intros x. rewrite Hin. simpl. rewrite set_add_elem.
      setoid_rewrite elem_of_cons. naive_solver.
Qed.

Lemma addMembers_ierTypes (ms : list Connection) (a : Agg.t) :
  NoDup (Agg._ierTypes a) →
  NoDup (Agg._ierTypes (addMembers a ms)) ∧
  ∀ x, x ∈ Agg._ierTypes (addMembers a ms) ↔
       x ∈ Agg._ierTypes a ∨ ∃ c, c ∈ ms ∧ x ∈ _ierTypes c.
Proof.
  clear Number_toString createPieIcon Math_cos Math_sin.
  revert a. induction ms as [|c ms IH]; intros a Ha.
  - split; [done|]. intros x. split; [by left|].
    by intros [?|(c & ?%elem_of_nil & _)].
  - rewrite addMembers_cons.
    destruct (IH (accumulate c a)) as (Hnd & Hin);
      [by apply foldl_set_add_NoDup|].
    split; [done|]. intros x. rewrite Hin. simpl. rewrite foldl_set_add_elem.
    setoid_rewrite elem_of_cons. naive_solver.
Qed.

Lemma addMembers_hubs (ms : list Connection) (a : Agg.t) :
  (Agg._isHub1 (addMembers a ms) = true ↔
     Agg._isHub1 a = true ∨ ∃ c, c ∈ ms ∧ _isHub1 c = true) ∧
  (Agg._isHub2 (addMembers a ms) = true ↔
     Agg._isHub2 a = true ∨ ∃ c, c ∈ ms ∧ _isHub2 c = true).
Proof.
  clear Number_toString createPieIcon Math_cos Math_sin.
  revert a. induction ms as [|c ms IH]; intros a.
  - split; (split; [by left|]); by intros [?|(c & ?%elem_of_nil & _)].
  - rewrite addMembers_cons. destruct (IH (accumulate c a)) as [H1 H2].
    split; [rewrite H1|rewrite H2]; simpl; rewrite orb_true_iff;
      setoid_rewrite elem_of_cons; naive_solver.
Qed.

Lemma aggregate_entry (conns : list Connection) (aggs : list Agg.t) (agg : Agg.t) :
  aggregateConnections conns = Some aggs → agg ∈ aggs →
  ∃ key c ms, members key conns = c :: ms ∧
              agg = addMembers (newAccumulator c) (c :: ms).
Proof.
  unfold aggregateConnections, aggregatedConnectionsMap.
  destruct (forEachM aggregateStep [] conns) as [m|] eqn:Hm; simpl; [|done].
  intros [= <-]. unfold map_values.
  intros ([key a] & -> & Hin)%list_elem_of_fmap. simpl.
  apply map_get_entry in Hin;
    [|eapply forEachM_NoDup; [|exact Hm]; apply NoDup_nil_2].
  rewrite (forEachM_get conns [] m key Hm) in Hin. cbn [map_get] in Hin.
  destruct (members key conns) as [|c ms] eqn:Hms; [done|].
  injection Hin as <-. by exists key, c, ms.
Qed.

(** X5. Each aggregate merges exactly the connections that have its key:
    its category list holds the categories of these members and nothing
    else, each once; likewise its tag list for their tags; each hub flag is
    set iff some member has it set; and its count is their number. *)
Theorem aggregate_is_union (conns : list Connection) (aggs : list Agg.t)
    (agg : Agg.t) :
  aggregateConnections conns = Some aggs → agg ∈ aggs →
  ∃ key, members key conns ≠ [] ∧
    NoDup (Agg._connTypes agg) ∧ NoDup (Agg._ierTypes agg) ∧
    (∀ x, x ∈ Agg._connTypes agg ↔
          ∃ c, c ∈ members key conns ∧ _connType c = x) ∧
    (∀ x, x ∈ Agg._ierTypes agg ↔
          ∃ c, c ∈ members key conns ∧ x ∈ _ierTypes c) ∧
    (Agg._isHub1 agg = true ↔ ∃ c, c ∈ members key conns ∧ _isHub1 c = true) ∧
    (Agg._isHub2 agg = true ↔ ∃ c, c ∈ members key conns ∧ _isHub2 c = true) ∧
    Agg._count agg = length (members key conns).
Proof.
  clear createPieIcon Math_cos Math_sin.
  intros Hrun Hin.
  destruct (aggregate_entry conns aggs agg Hrun Hin) as (key & c & ms & Hms & ->).
  exists key. rewrite Hms. split; [done|].
  destruct (addMembers_connTypes (c :: ms) (newAccumulator c)) as (Hnd & _ & Hct);
    [apply NoDup_nil_2|].
  destruct (addMembers_ierTypes (c :: ms) (newAccumulator c)) as (Hnd' & Hit);
    [apply NoDup_nil_2|].
  destruct (addMembers_hubs (c :: ms) (newAccumulator c)) as [Hh1 Hh2].
  split; [done|]. split; [done|]. split.
  { intros x. rewrite Hct. simpl. split; [|by right].
    by intros [?%elem_of_nil|?]. }
  split.
  { intros x. rewrite Hit. simpl. split; [|by right].
    by intros [?%elem_of_nil|?]. }
  split; [rewrite Hh1; simpl; naive_solver|].
  split; [rewrite Hh2; simpl; naive_solver|].
  rewrite addMembers_count. simpl. lia.
Qed.

Definition count_sum (m : list (string * Agg.t)) : nat :=
  sum_list_with (fun e => Agg._count (snd e)) m.

Lemma map_update_count_sum (m : list (string * Agg.t)) (c : Connection) (key : string) :
  map_has m key = true →
  count_sum (map_update (accumulate c) m key) = S (count_sum m).
Proof.
  unfold count_sum. induction m as [|[k a] r IH]; simpl; [done|].
  destruct (String.eqb k key); simpl; [done|]. intros Hr. rewrite IH by done. lia.
Qed.

Lemma aggregateStep_count_sum (m m1 : list (string * Agg.t)) (c : Connection) :
  aggregateStep m c = Some m1 →
  count_sum m1 = S (count_sum m) ∧ (length m1 ≤ S (length m))%nat.
Proof.
  unfold aggregateStep. destruct (connKey c) as [key|]; simpl; [|done].
  intros [= <-]. destruct (map_has m key) eqn:Hhas.
  - split; [by apply map_update_count_sum|].
    rewrite <- (length_map fst), map_update_keys, length_map. lia.
  - split.
    + rewrite map_update_count_sum.
      * unfold count_sum, map_set_new. rewrite sum_list_with_app. simpl. lia.
      * apply map_has_keys. unfold map_set_new. rewrite map_app.
        apply elem_of_app. right. by left.
    + rewrite <- (length_map fst), map_update_keys, length_map.
      unfold map_set_new. rewrite length_app. simpl. lia.
Qed.

Lemma forEachM_count_sum (l : list Connection) (m m' : list (string * Agg.t)) :
  forEachM aggregateStep m l = Some m' →
  count_sum m' = (count_sum m + length l)%nat ∧
  (length m' ≤ length m + length l)%nat.
Proof.
  revert m. induction l as [|c l IH]; intros m.
  - intros [= <-]. simpl. lia.
  - rewrite forEachM_cons.
    destruct (aggregateStep m c) as [m1|] eqn:Hstep; simpl; [|done].
    intros Hrun. destruct (IH _ Hrun) as [-> Hlen].
    destruct (aggregateStep_count_sum _ _ _ Hstep) as [-> Hlen1]. lia.
Qed.

(** X6. Aggregation counts every resolved connection exactly once: the
    member counts of the aggregates add up to the number of connections,
    and there are at most as many aggregates as connections. *)
Theorem aggregate_counts_conserved (conns : list Connection) (aggs : list Agg.t) :
  aggregateConnections conns = Some aggs →
  sum_list_with Agg._count aggs = length conns ∧
  (length aggs ≤ length conns)%nat.
Proof.
  unfold aggregateConnections, aggregatedConnectionsMap.
  destruct (forEachM aggregateStep [] conns) as [m|] eqn:Hm; simpl; [|done].
  intros [= <-]. destruct (forEachM_count_sum _ _ _ Hm) as [Hsum Hlen].
  unfold map_values. rewrite length_map. split; [|done].
  change (count_sum []) with 0%nat in Hsum. simpl in Hsum.
  rewrite <- Hsum. unfold count_sum. clear.
  induction m as [|e r IH]; simpl; [done|]. by rewrite IH.
Qed.

(** X7. An aggregate produced by the aggregation pass has between one
    category and as many categories as members, so the width the renderer
    derives from it is 2, 9 or 25 and never the fallback 0, and the width
    is 2 exactly when all members share one category. *)
Theorem aggregate_width_positive (conns : list Connection) (aggs : list Agg.t)
    (agg : Agg.t) :
  aggregateConnections conns = Some aggs → agg ∈ aggs →
  (1 ≤ length (Agg._connTypes agg) ≤ Agg._count agg)%nat ∧
  (getAggregatedWidth agg = 2 ∨ getAggregatedWidth agg = 9 ∨
   getAggregatedWidth agg = 25)%nat ∧
  (getAggregatedWidth agg = 2%nat ↔ length (Agg._connTypes agg) = 1%nat).
Proof.
  intros Hrun Hin.
  destruct (aggregate_entry conns aggs agg Hrun Hin) as (key & c & ms & Hms & ->).
  destruct (addMembers_connTypes (c :: ms) (newAccumulator c)) as (_ & Hlen & Hct);
    [apply NoDup_nil_2|].
  assert (Hpos : (1 ≤ length (Agg._connTypes
                    (addMembers (newAccumulator c) (c :: ms))))%nat).
  { assert (Hc : _connType c ∈ Agg._connTypes
                   (addMembers (newAccumulator c) (c :: ms))).
    { apply Hct. right. exists c. split; [by left|done]. }
    destruct (Agg._connTypes (addMembers (newAccumulator c) (c :: ms)));
      [by apply elem_of_nil in Hc|simpl; lia]. }
  assert (Hlen' : (length (Agg._connTypes
                     (addMembers (newAccumulator c) (c :: ms))) ≤ S (length ms))%nat)
    by exact Hlen.
  assert (Hcount : Agg._count (addMembers (newAccumulator c) (c :: ms))
                   = S (length ms)) by (by rewrite addMembers_count).
  rewrite Hcount. unfold getAggregatedWidth.
  set (n := length (Agg._connTypes (addMembers (newAccumulator c) (c :: ms)))) in *.
  split; [lia|].
  destruct (n =? 1)%nat eqn:E1.
  { apply Nat.eqb_eq in E1. split; [by left|done]. }
  apply Nat.eqb_neq in E1.
  destruct (n =? 2)%nat eqn:E2.
  { split; [right; by left|]. split; [done|lia]. }
  apply Nat.eqb_neq in E2.
  destruct (3 <=? n)%nat eqn:E3.
  { split; [right; by right|]. split; [done|lia]. }
  apply Nat.leb_gt in E3. lia.
Qed.

Lemma aggregate_connTypes_nonempty (conns : list Connection) (aggs : list Agg.t)
    (agg : Agg.t) :
  aggregateConnections conns = Some aggs → agg ∈ aggs →
  (1 ≤ length (Agg._connTypes agg))%nat.
Proof.
  intros Hrun Hin.
  destruct (aggregate_entry conns aggs agg Hrun Hin) as (key & c & ms & Hms & ->).
  destruct (addMembers_connTypes (c :: ms) (newAccumulator c)) as (_ & _ & Hct);
    [apply NoDup_nil_2|].
  assert (Hc : _connType c ∈ Agg._connTypes
                 (addMembers (newAccumulator c) (c :: ms))).
  { apply Hct. right. exists c. split; [by left|done]. }
  destruct (Agg._connTypes (addMembers (newAccumulator c) (c :: ms)));
    [by apply elem_of_nil in Hc|simpl; lia].
Qed.

(** X8. On the aggregates the pass produces, colour and width tell the
    same story: grey goes with width 2, yellow with width 9, and orange or
    red with width 25. *)
Theorem aggregate_colour_follows_width (conns : list Connection)
    (aggs : list Agg.t) (agg : Agg.t) :
  aggregateConnections conns = Some aggs → agg ∈ aggs →
  (getAggregatedColor agg = (200, 200, 200, 150) ↔ getAggregatedWidth agg = 2%nat) ∧
  (getAggregatedColor agg = (255, 255, 0, 170) ↔ getAggregatedWidth agg = 9%nat) ∧
  (getAggregatedColor agg = (255, 165, 0, 160) ∨
   getAggregatedColor agg = (255, 0, 0, 200) ↔ getAggregatedWidth agg = 25%nat).
Proof.
  intros Hrun Hin.
  pose proof (aggregate_connTypes_nonempty conns aggs agg Hrun Hin) as Hpos.
  unfold getAggregatedColor, getAggregatedWidth.
  destruct (length (Agg._connTypes agg)) as [|[|[|[|[|n]]]]]; [lia|..];
    cbn [Nat.eqb Nat.leb];
    (split; [|split]); (split; [intros H|intros H]);
    try discriminate H; try reflexivity;
    try (destruct H as [H|H]; discriminate H);
    try (by left); try (by right).
Qed.

(** X9. An aggregate passes the category test of its layer iff some member
    has an active category, and passes the tag test iff tag filtering is off
    or some member carries an active tag; the two members need not be the
    same. *)
Theorem aggregate_tests_are_disjunctions (conns : list Connection)
    (aggs : list Agg.t) (agg : Agg.t) (fs : FilterState) :
  aggregateConnections conns = Some aggs → agg ∈ aggs →
  ∃ key,
    (existsb (fun type => set_has (activeTypes fs) type) (Agg._connTypes agg) = true
       ↔ ∃ c, c ∈ members key conns ∧ set_has (activeTypes fs) (_connType c) = true) ∧
    (ierVisible fs (Agg._ierTypes agg) = true
       ↔ activeIerTypes fs = [] ∨
         ∃ c, c ∈ members key conns ∧
              existsb (fun t => set_has (activeIerTypes fs) t) (_ierTypes c) = true).
Proof.
  intros Hrun Hin.
  destruct (aggregate_entry conns aggs agg Hrun Hin) as (key & c & ms & Hms & ->).
  exists key. rewrite Hms.
  destruct (addMembers_connTypes (c :: ms) (newAccumulator c)) as (_ & _ & Hct);
    [apply NoDup_nil_2|].
  destruct (addMembers_ierTypes (c :: ms) (newAccumulator c)) as (_ & Hit);
    [apply NoDup_nil_2|].
  split.
  - rewrite existsb_exists. split.
    + intros (x & Hx%list_elem_of_In%Hct & Hact).
      destruct Hx as [?%elem_of_nil|(c' & Hc' & <-)]; [done|]. by exists c'.
    + intros (c' & Hc' & Hact). exists (_connType c'). split; [|done].
      apply list_elem_of_In, Hct. right. by exists c'.
  - unfold ierVisible. rewrite orb_true_iff, Nat.eqb_eq, length_zero_iff_nil.
    rewrite existsb_exists. split.
    + intros [?|(x & Hx%list_elem_of_In%Hit & Hact)]; [by left|right].
      destruct Hx as [?%elem_of_nil|(c' & Hc' & Hx)]; [done|].
      exists c'. split; [done|]. apply existsb_exists. exists x.
      split; [by apply list_elem_of_In|done].
    + intros [?|(c' & Hc' & (x & Hx & Hact)%existsb_exists)]; [by left|right].
      exists x. split; [|done]. apply list_elem_of_In, Hit. right.
      exists c'. split; [done|]. by apply list_elem_of_In.
Qed.

(** ** Further properties of the co-location grouper *)

Lemma setLabelOffset_pinTypes (off : nat → float * float) (l : list Feature) :
  map _pinType (imap (fun i p => setLabelOffset p (off i)) l) = map _pinType l.
Proof.
  revert off. induction l as [|p r IH]; intros off; [done|].
  simpl. f_equal. apply (IH (off ∘ S)).
Qed.

Lemma overlapping_group_shape (allPoints : list Feature) (g : PinGroup) :
  g ∈ overlappingPins allPoints →
  ∃ k group, (k, group) ∈ pinsByLocation (map attachPinType allPoints) ∧
             group = located k (map attachPinType allPoints) ∧ group ≠ [] ∧
             g = assignLabelOffsets (makePinGroup group).
Proof.
  unfold overlappingPins, map_values.
  intros (g0 & -> & (group & -> & ([k grp] & -> & Hin)%list_elem_of_fmap)
            %list_elem_of_fmap)%list_elem_of_fmap.
  simpl. exists k, grp. split; [done|].
  destruct (pinsByLocation_groups (map attachPinType allPoints) grp)
    as (k' & Hk' & Hne).
  { unfold map_values. by apply (list_elem_of_fmap_2' snd _ (k, grp)). }
  split; [|done].
  apply map_get_entry in Hin; [|apply pinsByLocation_NoDup, NoDup_nil_2].
  unfold pinsByLocation in Hin. rewrite pinsByLocation_get in Hin. simpl in Hin.
  destruct (located k (map attachPinType allPoints)); [done|]. by injection Hin.
Qed.

Lemma assignLabelOffsets_pinTypes (g : PinGroup) :
  pinTypes (assignLabelOffsets g) = pinTypes g ∧
  map _pinType (originalPins (assignLabelOffsets g)) = map _pinType (originalPins g) ∧
  count (assignLabelOffsets g) = count g.
Proof.
  unfold assignLabelOffsets. destruct (1 <? count g)%nat; [|done]. simpl.
  split; [done|]. split; [apply setLabelOffset_pinTypes|done].
Qed.

(** X10. A co-located group passes the filter of the pin layer iff at least
    one of its members passes the filter of the pin-label layer, that is iff
    the group of at least one member is active. *)
Theorem pin_group_visible_iff_member (allPoints : list Feature) (g : PinGroup)
    (fs : FilterState) :
  g ∈ overlappingPins allPoints →
  (getPinGroupFilterValue fs g = 1%nat ↔
   ∃ p, p ∈ originalPins g ∧ getPinLabelFilterValue fs p = 1%nat).
Proof.
  intros (k & group & _ & _ & _ & ->)%overlapping_group_shape.
  destruct (assignLabelOffsets_pinTypes (makePinGroup group)) as (Hpt & Hop & _).
  unfold getPinGroupFilterValue. rewrite Hpt. simpl pinTypes. simpl in Hop.
  rewrite <- Hop.
  set (members := originalPins (assignLabelOffsets (makePinGroup group))).
  clearbody members. unfold getPinLabelFilterValue. split.
  - destruct (existsb _ _) eqn:E; [|done]. intros _.
    apply existsb_exists in E as (t & (p & <- & Hp)%in_map_iff & Hact).
    exists p. split; [by apply list_elem_of_In|]. by rewrite Hact.
  - intros (p & Hp & Hact).
    destruct (pointTypes_has (activePointTypes fs) (_pinType p)) eqn:E; [|done].
    assert (Hex : existsb (fun type => pointTypes_has (activePointTypes fs) type)
                    (map _pinType members) = true).
    { apply existsb_exists. exists (_pinType p). split; [|done].
      apply in_map, list_elem_of_In, Hp. }
    by rewrite Hex.
Qed.

Lemma map_update_snoc_concat (m : list (string * list Feature)) (p : Feature)
    (k : string) :
  map_has m k = true →
  concat (map snd (map_update (fun pins => pins ++ [p]) m k))
    ≡ₚ concat (map snd m) ++ [p].
Proof.
  induction m as [|[k0 g] r IH]; simpl; [done|].
  destruct (String.eqb k0 k); simpl.
  - intros _. rewrite <- !app_assoc. f_equiv. apply Permutation_app_comm.
  - intros Hr. rewrite (IH Hr). by rewrite app_assoc.
Qed.

Lemma addPinByLocation_concat (m : list (string * list Feature)) (p : Feature) :
  concat (map snd (addPinByLocation m p)) ≡ₚ concat (map snd m) ++ [p].
Proof.
  unfold addPinByLocation. destruct (map_has m (locationKey p)) eqn:Hhas.
  - by apply map_update_snoc_concat.
  - rewrite map_update_snoc_concat.
    + unfold map_set_new. rewrite map_app, concat_app. simpl.
      by rewrite app_nil_r.
    + apply map_has_keys. unfold map_set_new. rewrite map_app.
      apply elem_of_app. right. by left.
Qed.

Lemma pinsByLocation_concat (pins : list Feature) (m : list (string * list Feature)) :
  concat (map snd (foldl addPinByLocation m pins)) ≡ₚ concat (map snd m) ++ pins.
Proof.
  revert m. induction pins as [|p r IH]; intros m; simpl; [by rewrite app_nil_r|].
  rewrite IH, addPinByLocation_concat, <- app_assoc. done.
Qed.

Lemma processedPins_base (allPoints : list Feature) :
  map base (processedPins allPoints) =
  map base (concat (map_values (pinsByLocation (map attachPinType allPoints)))).
Proof.
  unfold processedPins, overlappingPins.
  induction (map_values (pinsByLocation (map attachPinType allPoints)))
    as [|group r IH]; simpl; [done|].
  rewrite !map_app, IH. f_equal.
  by rewrite assignLabelOffsets_base.
Qed.

(** X11. Grouping loses and duplicates no point: the final pin list is a
    rearrangement of the loaded points (derived fields apart), every pin of
    it carries the group computed from its name, and the member counts of
    the groups add up to the number of loaded points. *)
Theorem processedPins_complete (allPoints : list Feature) :
  map base (processedPins allPoints) ≡ₚ map base allPoints ∧
  Forall (fun p => _pinType p = Some (getPinType p)) (processedPins allPoints) ∧
  sum_list_with count (overlappingPins allPoints) = length allPoints.
Proof.
  assert (Hperm : concat (map_values (pinsByLocation (map attachPinType allPoints)))
                  ≡ₚ map attachPinType allPoints).
  { unfold map_values, pinsByLocation. by rewrite pinsByLocation_concat. }
  split; [|split].
  - rewrite processedPins_base, Hperm, map_map. done.
  - apply Forall_forall. intros p Hp. unfold processedPins in Hp.
    apply list_elem_of_In, in_flat_map in Hp as (g & Hg & Hp).
    apply list_elem_of_In, overlapping_group_shape in Hg
      as (k & group & _ & Hgroup & _ & ->).
    assert (Hall : Forall (fun q => _pinType q = Some (getPinType q)) group).
    { apply Forall_forall. intros q Hq. rewrite Hgroup in Hq.
      apply list_elem_of_In, filter_In in Hq as [Hq _].
      by apply in_map_iff in Hq as (q0 & <- & _). }
    apply list_elem_of_In in Hp. unfold assignLabelOffsets in Hp. simpl in Hp.
    destruct (1 <? length group)%nat; simpl in Hp.
    + apply list_elem_of_lookup in Hp as (i & Hi).
      apply list_lookup_imap_Some in Hi as (q & Hq & ->).
      rewrite Forall_forall in Hall. apply (Hall q). by eapply list_elem_of_lookup_2.
    + rewrite Forall_forall in Hall. by apply Hall.
  - rewrite <- (length_map attachPinType), <- Hperm. unfold overlappingPins.
    clear Hperm.
    induction (map_values (pinsByLocation (map attachPinType allPoints)))
      as [|group r IH]; simpl; [done|].
    rewrite length_app, IH. f_equal.
    by destruct (assignLabelOffsets_pinTypes (makePinGroup group)) as (_ & _ & ->).
Qed.

Lemma group_members_key (allPoints : list Feature) (k : string)
    (group : list Feature) (p : Feature) :
  group = located k (map attachPinType allPoints) →
  p ∈ originalPins (assignLabelOffsets (makePinGroup group)) →
  locationKey p = k.
Proof.
  intros Hgroup Hp.
  apply (list_elem_of_fmap_2 base) in Hp.
  change (base p ∈ map base (originalPins (assignLabelOffsets (makePinGroup group))))
    in Hp.
  rewrite assignLabelOffsets_base in Hp. simpl in Hp.
  apply list_elem_of_In, in_map_iff in Hp as (q & Hq & Hin).
  rewrite Hgroup in Hin. apply filter_In in Hin as [_ Hk].
  apply bool_decide_eq_true in Hk. rewrite <- Hk.
  unfold locationKey. injection Hq as _ Hgeo. by rewrite Hgeo.
Qed.

(** X12. The groups are the classes of the coordinate string: all members
    of a group have the same coordinate string, and members of two different
    groups have different ones. *)
Theorem groups_partition_by_location (allPoints : list Feature) :
  (∀ g p q, g ∈ overlappingPins allPoints →
     p ∈ originalPins g → q ∈ originalPins g → locationKey p = locationKey q) ∧
  (∀ i j gi gj p q, i ≠ j →
     overlappingPins allPoints !! i = Some gi →
     overlappingPins allPoints !! j = Some gj →
     p ∈ originalPins gi → q ∈ originalPins gj →
     locationKey p ≠ locationKey q).
Proof.
  split.
  - intros g p q (k & group & _ & Hgroup & _ & ->)%overlapping_group_shape Hp Hq.
    rewrite (group_members_key allPoints k group p Hgroup Hp).
    by rewrite (group_members_key allPoints k group q Hgroup Hq).
  - intros i j gi gj p q Hij Hi Hj Hp Hq. unfold overlappingPins, map_values in *.
    rewrite !list_lookup_fmap in Hi, Hj.
    set (m := pinsByLocation (map attachPinType allPoints)) in *.
    destruct (m !! i) as [[ki grpi]|] eqn:Hmi; [|done].
    destruct (m !! j) as [[kj grpj]|] eqn:Hmj; [|done].
    simpl in Hi, Hj. injection Hi as <-. injection Hj as <-.
    assert (Hnd : NoDup (map fst m)) by apply pinsByLocation_NoDup, NoDup_nil_2.
    assert (Hkeys : ki ≠ kj).
    { intros ->. apply Hij. eapply (NoDup_lookup _ i j kj Hnd).
      - change (map fst m) with (fst <$> m). by rewrite list_lookup_fmap, Hmi.
      - change (map fst m) with (fst <$> m). by rewrite list_lookup_fmap, Hmj. }
    assert (Hgi : grpi = located ki (map attachPinType allPoints)).
    { apply list_elem_of_lookup_2, map_get_entry in Hmi; [|done].
      unfold m, pinsByLocation in Hmi. rewrite pinsByLocation_get in Hmi.
      simpl in Hmi. destruct (located ki _); [done|by injection Hmi]. }
    assert (Hgj : grpj = located kj (map attachPinType allPoints)).
    { apply list_elem_of_lookup_2, map_get_entry in Hmj; [|done].
      unfold m, pinsByLocation in Hmj. rewrite pinsByLocation_get in Hmj.
      simpl in Hmj. destruct (located kj _); [done|by injection Hmj]. }
    rewrite (group_members_key allPoints ki grpi p Hgi Hp).
    by rewrite (group_members_key allPoints kj grpj q Hgj Hq).
Qed.

(** ** Properties of the filter controls *)

Lemma NoDup_connItems : NoDup connItems.
Proof. apply (bool_decide_unpack _). by vm_compute. Qed.

Lemma NoDup_ierItems : NoDup ierItems.
Proof. apply (bool_decide_unpack _). by vm_compute. Qed.

Lemma NoDup_ALL_POINT_TYPES : NoDup ALL_POINT_TYPES.
Proof. apply (bool_decide_unpack _). by vm_compute. Qed.

Lemma elem_of_ALL_POINT_TYPES (t : PointType) : t ∈ ALL_POINT_TYPES.
Proof. destruct t; apply (bool_decide_unpack _); by vm_compute. Qed.

Lemma set_delete_elem (s : list string) (x y : string) :
  x ∈ set_delete s y ↔ x ∈ s ∧ x ≠ y.
Proof.
  unfold set_delete. rewrite list_elem_of_In, filter_In, <- list_elem_of_In.
  rewrite negb_true_iff, String.eqb_neq. done.
Qed.

Lemma pointTypes_add_NoDup (s : list PointType) (x : PointType) :
  NoDup s → NoDup (pointTypes_add s x).
Proof.
  intros Hs. unfold pointTypes_add. destruct (bool_decide (x ∈ s)) eqn:E; [done|].
  apply bool_decide_eq_false in E. apply NoDup_app. split; [done|].
  split; [|apply NoDup_singleton]. by intros y Hy ->%list_elem_of_singleton.
Qed.

Lemma NoDup_list_filter {A : Type} (f : A → bool) (l : list A) :
  NoDup l → NoDup (List.filter f l).
Proof.
  induction 1 as [|x l Hx Hl IH]; simpl; [apply NoDup_nil_2|].
  destruct (f x); [|done]. apply NoDup_cons. split; [|done].
  intros Hin. apply Hx. by apply list_elem_of_In, filter_In in Hin as [?%list_elem_of_In _].
Qed.

Lemma set_delete_NoDup (s : list string) (x : string) :
  NoDup s → NoDup (set_delete s x).
Proof. apply NoDup_list_filter. Qed.

Lemma pointTypes_delete_NoDup (s : list PointType) (x : PointType) :
  NoDup s → NoDup (pointTypes_delete s x).
Proof. apply NoDup_list_filter. Qed.

Ltac legend_goal :=
  lazymatch goal with
  | |- NoDup (if ?b then _ else _) => destruct b; legend_goal
  | |- NoDup [] => apply NoDup_nil_2
  | |- NoDup (set_add _ _) => apply set_add_NoDup; legend_goal
  | |- NoDup (set_delete _ _) => apply set_delete_NoDup; legend_goal
  | |- NoDup (pointTypes_add _ _) => apply pointTypes_add_NoDup; legend_goal
  | |- NoDup (pointTypes_delete _ _) => apply pointTypes_delete_NoDup; legend_goal
  | |- NoDup (foldl set_add [] connItems) => apply NoDup_connItems
  | |- NoDup (foldl set_add [] ierItems) => apply NoDup_ierItems
  | |- NoDup (foldl pointTypes_add [] ALL_POINT_TYPES) =>
      apply NoDup_ALL_POINT_TYPES
  | |- NoDup _ => assumption
  | |- ∀ x, x ∈ (if ?b then _ else _) → _ => destruct b; legend_goal
  | |- ∀ x, x ∈ [] → _ => by intros ? ?%elem_of_nil
  | |- ∀ x, x ∈ set_add _ _ → _ =>
      let x := fresh "x" in
      intros x [?| ->]%set_add_elem;
      [auto|first [assumption|apply (bool_decide_unpack _); by vm_compute]]
  | |- ∀ x, x ∈ set_delete _ _ → _ =>
      let x := fresh "x" in intros x [? _]%set_delete_elem; auto
  | |- ∀ x, x ∈ _ → _ => first [assumption|let x := fresh "x" in intros x ?; done]
  end.

Lemma handle_legend_state (fs : FilterState) (e : Event) :
  legend_state fs → wired e → legend_state (handle fs e).
Proof.
  intros (Ht & Hp & Hi & Hts & His) Hw.
  destruct e; simpl in Hw; unfold legend_state, handle; cbn [activeTypes
    activePointTypes activeIerTypes with_activeTypes with_activePointTypes
    with_activeIerTypes];
    (split; [|split; [|split; [|split]]]); legend_goal.
Qed.

(** X13. Whatever sequence of control events follows initialisation, each
    of the three active sets holds no value twice, every active category is
    a key of the connection legend and every active tag a key of the tag
    legend; in particular no active value is empty or holds a comma. *)
Theorem reachable_legend_state (fs : FilterState) :
  reachable fs → legend_state fs ∧ plain_keys fs.
Proof.
  intros (events & Hwired & ->).
  assert (Hleg : legend_state (foldl handle initialState events)).
  { induction events as [|e events IH] using rev_ind.
    - unfold legend_state; simpl. repeat split; try apply NoDup_nil_2;
        by intros x ?%elem_of_nil.
    - apply Forall_app in Hwired as [Hevents He].
      rewrite foldl_app. simpl. apply handle_legend_state; [by apply IH|].
      by apply Forall_inv in He. }
  split; [done|]. destruct Hleg as (_ & _ & _ & Hts & His).
  assert (Hc : Forall plain connItems) by (repeat constructor; done).
  assert (Hi : Forall plain ierItems) by (repeat constructor; done).
  rewrite Forall_forall in Hc, Hi.
  split; apply Forall_forall; auto.
Qed.

Lemma reachable_plain_keys (fs : FilterState) : reachable fs → plain_keys fs.
Proof.
  intros (events & Hwired & ->).
  assert (Hleg : legend_state (foldl handle initialState events)).
  { induction events as [|e events IH] using rev_ind.
    - unfold legend_state; simpl.
      split; [apply NoDup_nil_2|]. split; [apply NoDup_nil_2|].
      split; [apply NoDup_nil_2|]. split; by intros x ?%elem_of_nil.
    - apply Forall_app in Hwired as [Hevents He].
      rewrite foldl_app. simpl. apply handle_legend_state; [by apply IH|].
      by apply Forall_inv in He. }
  destruct Hleg as (_ & _ & _ & Hts & His).
  assert (Hc : Forall plain connItems) by (repeat constructor; done).
  assert (Hi : Forall plain ierItems) by (repeat constructor; done).
  rewrite Forall_forall in Hc, Hi.
  split; apply Forall_forall; auto.
Qed.

(** C4. The filter-state key is a function of the filter state that does
    not depend on the order in which the active sets are enumerated; and
    from every state the program can be in (the initial state followed by
    any sequence of control events), a change of exactly one dimension -
    the set of active categories, groups or tags, either hub-suppression
    flag, the aggregated-view flag, or either label-visibility flag - that
    leads to another such state yields a different key. *)
Theorem filterKey_tracks_state :
  (∀ fs fs', same_up_to_order fs fs' → filterKey fs = filterKey fs') ∧
  (∀ fs fs', reachable fs → reachable fs' → single_change fs fs' →
             filterKey fs ≠ filterKey fs').
Proof.
  split; [exact (proj1 filterKey_sound)|].
  intros fs fs' Hfs Hfs'.
  apply (proj2 filterKey_sound); by apply reachable_plain_keys.
Qed.

Lemma all_active_length {A : Type} (l K : list A) :
  NoDup l → NoDup K → (∀ x, x ∈ l → x ∈ K) →
  (length l = length K ↔ ∀ k, k ∈ K → k ∈ l).
Proof.
  intros Hl HK Hsub. split.
  - intros Hlen k Hk.
    assert (Hperm : l ≡ₚ K).
    { apply submseteq_length_Permutation; [by apply NoDup_submseteq|lia]. }
    by rewrite Hperm.
  - intros Hall. apply Permutation_length, NoDup_Permutation; try done.
    intros x. split; auto.
Qed.

(** X14. From a state the controls can produce, each All / None button
    empties its set when every key of its legend is active, and otherwise
    activates every key of its legend. *)
Theorem all_none_buttons (fs : FilterState) :
  legend_state fs →
  ((∀ k, k ∈ connItems → k ∈ activeTypes fs) →
     activeTypes (handle fs AllConnClick) = []) ∧
  ((∃ k, k ∈ connItems ∧ k ∉ activeTypes fs) →
     activeTypes (handle fs AllConnClick) = connItems) ∧
  ((∀ k, k ∈ ierItems → k ∈ activeIerTypes fs) →
     activeIerTypes (handle fs AllIerClick) = []) ∧
  ((∃ k, k ∈ ierItems ∧ k ∉ activeIerTypes fs) →
     activeIerTypes (handle fs AllIerClick) = ierItems) ∧
  ((∀ k, k ∈ ALL_POINT_TYPES → k ∈ activePointTypes fs) →
     activePointTypes (handle fs AllPinsClick) = []) ∧
  ((∃ k, k ∉ activePointTypes fs) →
     activePointTypes (handle fs AllPinsClick) = ALL_POINT_TYPES).
Proof.
  intros (Ht & Hp & Hi & Hts & His).
  pose proof (all_active_length _ _ Ht NoDup_connItems Hts) as Hct.
  pose proof (all_active_length _ _ Hi NoDup_ierItems His) as Hit.
  pose proof (all_active_length _ _ Hp NoDup_ALL_POINT_TYPES
                (fun x _ => elem_of_ALL_POINT_TYPES x)) as Hpt.
  cbn [handle with_activeTypes with_activePointTypes with_activeIerTypes
       activeTypes activePointTypes activeIerTypes].
  repeat split.
  - intros Hall. pose proof (proj2 Hct Hall) as Hlen. by apply Nat.eqb_eq in Hlen as ->.
  - intros (k & Hk & Hnot).
    destruct (length (activeTypes fs) =? length connItems)%nat eqn:E; [|done].
    apply Nat.eqb_eq in E. by pose proof (proj1 Hct E k Hk).
  - intros Hall. pose proof (proj2 Hit Hall) as Hlen. by apply Nat.eqb_eq in Hlen as ->.
  - intros (k & Hk & Hnot).
    destruct (length (activeIerTypes fs) =? length ierItems)%nat eqn:E; [|done].
    apply Nat.eqb_eq in E. by pose proof (proj1 Hit E k Hk).
  - intros Hall. pose proof (proj2 Hpt Hall) as Hlen. by apply Nat.eqb_eq in Hlen as ->.
  - intros (k & Hnot).
    destruct (length (activePointTypes fs) =? length ALL_POINT_TYPES)%nat eqn:E;
      [|done].
    apply Nat.eqb_eq in E.
    by pose proof (proj1 Hpt E k (elem_of_ALL_POINT_TYPES k)).
Qed.

Lemma contains_char_app (c : ascii) (a b : string) :
  contains_char c (a +:+ b) = contains_char c a || contains_char c b.
Proof.
  induction a as [|x a IH]; [done|]. rewrite (app_cons x a b). simpl.
  by rewrite IH, orb_assoc.
Qed.

Lemma contains_char_join (c : ascii) (l : list string) :
  Ascii.eqb "," c = false →
  Forall (fun s => contains_char c s = false) l →
  contains_char c (join "," l) = false.
Proof.
  intros Hc. induction 1 as [|p r Hp Hr IH]; [done|].
  rewrite join_cons, contains_char_app, Hp. simpl.
  destruct r; [done|]. rewrite contains_char_app, IH.
  change (contains_char c ",") with (Ascii.eqb "," c || false). by rewrite Hc.
Qed.

Lemma char_split (c : ascii) (a b x y : string) :
  contains_char c a = false → contains_char c b = false →
  (x = "" ∨ ∃ r, x = String c r) → (y = "" ∨ ∃ r, y = String c r) →
  a +:+ x = b +:+ y → a = b ∧ x = y.
Proof.
  revert b. induction a as [|d a IH]; intros [|d' b] Ha Hb Hx Hy; simpl in *.
  - done.
  - rewrite (app_cons d' b y). change ("" +:+ x) with x. intros ->.
    apply orb_false_iff in Hb as [Hd _].
    destruct Hx as [?|[r [= -> _]]]; [done|]. by rewrite Ascii.eqb_refl in Hd.
  - rewrite (app_cons d a x). change ("" +:+ y) with y. intros <-.
    apply orb_false_iff in Ha as [Hd _].
    destruct Hy as [?|[r [= -> _]]]; [done|]. by rewrite Ascii.eqb_refl in Hd.
  - rewrite (app_cons d a x), (app_cons d' b y). intros [= -> H].
    apply orb_false_iff in Ha as [_ Ha]. apply orb_false_iff in Hb as [_ Hb].
    destruct (IH b Ha Hb Hx Hy H) as [-> ->]. done.
Qed.

Lemma flag_split (b b' : bool) (r r' : string) :
  flag b +:+ r = flag b' +:+ r' → b = b' ∧ r = r'.
Proof. destruct b, b'; intros [= H]; done. Qed.

Lemma bar_free_sorted_join (l : list string) :
  Forall (fun s => contains_char "|" s = false) l →
  contains_char "|" (join "," (sort_strings l)) = false.
Proof.
  intros Hl. apply contains_char_join; [done|]. by rewrite sort_strings_perm.
Qed.

Lemma names_same_elements (p p' : list PointType) :
  same_elements (map PointType_name p) (map PointType_name p') → same_elements p p'.
Proof.
  intros Hnames x. specialize (Hnames (PointType_name x)).
  change (map PointType_name p) with (PointType_name <$> p) in Hnames.
  change (map PointType_name p') with (PointType_name <$> p') in Hnames.
  split; intros Hx; apply (list_elem_of_fmap_2 PointType_name) in Hx;
    apply Hnames in Hx; apply list_elem_of_fmap in Hx as (y & Hy & Hin);
    by apply PointType_name_inj in Hy as ->.
Qed.

Lemma legend_keys_clean :
  Forall (fun s => plain s ∧ contains_char "|" s = false) (connItems ++ ierItems).
Proof. repeat constructor; done. Qed.

Lemma names_clean (p : list PointType) :
  Forall plain (map PointType_name p) ∧
  Forall (fun s => contains_char "|" s = false) (map PointType_name p).
Proof.
  split; induction p as [|t p IH]; simpl; constructor; try done.
  - apply PointType_name_plain.
  - by destruct t.
Qed.

(** X15. On the states the controls can produce the filter key loses
    nothing: two such states with the same key have the same active
    categories, groups and tags and the same five flags, however many
    dimensions a change touched. *)
Theorem filterKey_injective_on_legend_states (fs fs' : FilterState) :
  legend_state fs → legend_state fs' →
  filterKey fs = filterKey fs' → same_up_to_order fs fs'.
Proof.
  intros (Ht & Hp & Hi & Hts & His) (Ht' & Hp' & Hi' & Hts' & His') Hkey.
  pose proof legend_keys_clean as Hclean. rewrite Forall_forall in Hclean.
  assert (Hc : ∀ l : list string, (∀ x, x ∈ l → x ∈ connItems ∨ x ∈ ierItems) →
             Forall plain l ∧ Forall (fun s => contains_char "|" s = false) l).
  { intros l Hl. split; apply Forall_forall; intros x Hx;
      apply Hclean, elem_of_app, Hl, Hx. }
  destruct (Hc (activeTypes fs)) as [Hpl1 Hbar1]; [auto|].
  destruct (Hc (activeTypes fs')) as [Hpl1' Hbar1']; [auto|].
  destruct (Hc (activeIerTypes fs)) as [Hpl3 Hbar3]; [auto|].
  destruct (Hc (activeIerTypes fs')) as [Hpl3' Hbar3']; [auto|].
  destruct (names_clean (activePointTypes fs)) as [Hpl2 Hbar2].
  destruct (names_clean (activePointTypes fs')) as [Hpl2' Hbar2'].
  destruct fs as [t p i h1 h2 a cl pl], fs' as [t' p' i' h1' h2' a' cl' pl'].
  unfold filterKey in Hkey. simpl in *. rewrite !app_assoc_str in Hkey.
  apply char_split with (c := "|"%char) in Hkey as [HT Hkey];
    [|by apply bar_free_sorted_join|by apply bar_free_sorted_join
     |right; by eexists|right; by eexists].
  do 2 apply app_cancel_l in Hkey. apply flag_split in Hkey as [-> Hkey].
  do 2 apply app_cancel_l in Hkey. apply flag_split in Hkey as [-> Hkey].
  apply app_cancel_l in Hkey.
  apply char_split with (c := "|"%char) in Hkey as [HP Hkey];
    [|by apply bar_free_sorted_join|by apply bar_free_sorted_join
     |right; by eexists|right; by eexists].
  apply app_cancel_l in Hkey.
  apply char_split with (c := "|"%char) in Hkey as [HI Hkey];
    [|by apply bar_free_sorted_join|by apply bar_free_sorted_join
     |right; by eexists|right; by eexists].
  do 2 apply app_cancel_l in Hkey. apply flag_split in Hkey as [-> Hkey].
  apply app_cancel_l in Hkey. apply flag_split in Hkey as [-> Hkey].
  apply app_cancel_l, flag_inj in Hkey as ->.
  unfold same_up_to_order; simpl. repeat split; try done.
  - apply NoDup_Permutation; [done..|]. by apply sorted_join_inj.
  - apply NoDup_Permutation; [done..|].
    by apply names_same_elements, sorted_join_inj.
  - apply NoDup_Permutation; [done..|]. by apply sorted_join_inj.
Qed.

Lemma existsb_false {A : Type} (f : A → bool) (l : list A) :
  (∀ x, f x = false) → existsb f l = false.
Proof. intros Hf. induction l as [|x r IH]; simpl; [done|]. by rewrite Hf, IH. Qed.

(** X17. While no group is active nothing is drawn: every connection,
    aggregate, pin group and pin label is filtered out, whatever the other
    filters are; and while no category is active every connection and
    aggregate is filtered out. *)
Theorem nothing_visible_without_groups (fs : FilterState) :
  (activePointTypes fs = [] →
     (∀ d, getConnectionFilterValue fs d = 0%nat) ∧
     (∀ d, getAggregatedFilterValue fs d = 0%nat) ∧
     (∀ g, getPinGroupFilterValue fs g = 0%nat) ∧
     (∀ p, getPinLabelFilterValue fs p = 0%nat)) ∧
  (activeTypes fs = [] →
     (∀ d, getConnectionFilterValue fs d = 0%nat) ∧
     (∀ d, getAggregatedFilterValue fs d = 0%nat)).
Proof.
  split.
  - intros Hnone.
    assert (Hhas : ∀ t, pointTypes_has (activePointTypes fs) t = false).
    { intros [t|]; [|done]. simpl. rewrite Hnone. by apply bool_decide_eq_false_2,
        not_elem_of_nil. }
    repeat split.
    + intros d. unfold getConnectionFilterValue, pinTypeActive. rewrite Hnone.
      rewrite (bool_decide_eq_false_2 (_sourcePinType d ∈ [])) by apply not_elem_of_nil.
      by rewrite !andb_false_r.
    + intros d. unfold getAggregatedFilterValue, pinTypeActive. rewrite Hnone.
      rewrite (bool_decide_eq_false_2 (Agg._sourcePinType d ∈ []))
        by apply not_elem_of_nil.
      by rewrite !andb_false_r.
    + intros g. unfold getPinGroupFilterValue. by rewrite existsb_false.
    + intros p. unfold getPinLabelFilterValue. by rewrite Hhas.
  - intros Hnone. split; intros d.
    + unfold getConnectionFilterValue. by rewrite Hnone.
    + unfold getAggregatedFilterValue. rewrite Hnone.
      by rewrite existsb_false.
Qed.

(** X18. Direction does not matter to resolution: two raw connections with
    exchanged references resolve to records with exchanged positions and
    endpoint groups and with the same hub flags, so that they fall into
    the same aggregate. *)
Theorem reversed_connections_resolve_alike
    (pointMap : gmap string Feature) (c1 c2 : JsVal) :
  getProp c1 "from" = getProp c2 "to" → getProp c1 "to" = getProp c2 "from" →
  let r1 := resolveConnection pointMap c1 in
  let r2 := resolveConnection pointMap c2 in
  _sourcePos r1 = _targetPos r2 ∧ _targetPos r1 = _sourcePos r2 ∧
  _sourcePinType r1 = _targetPinType r2 ∧ _targetPinType r1 = _sourcePinType r2 ∧
  _isHub1 r1 = _isHub1 r2 ∧ _isHub2 r1 = _isHub2 r2 ∧
  hasPositions r1 = hasPositions r2 ∧
  (hasPositions r1 = true → connKey r1 = connKey r2).
Proof.
  intros Hf Ht. simpl. rewrite Hf, Ht.
  set (p := pointMap_get pointMap (getProp c2 "to")).
  set (q := pointMap_get pointMap (getProp c2 "from")).
  assert (Hsym : ∀ s t lng lat, touches s t lng lat = touches t s lng lat).
  { intros [s|] [t|] lng lat; simpl; try done. apply orb_comm. }
  repeat split; try done.
  - apply Hsym.
  - apply Hsym.
  - unfold hasPositions, resolveConnection. cbn [_sourcePos _targetPos].
    rewrite Hf, Ht. fold p q. by destruct (pointPosition p), (pointPosition q).
  - intros _. unfold connKey, resolveConnection. cbn [_sourcePos _targetPos].
    rewrite Hf, Ht. fold p q.
    destruct (posStr (pointPosition p)), (posStr (pointPosition q)); simpl; try done.
    by rewrite sort2_sym.
Qed.

Lemma forEachM_defined (l : list Connection) (m m' : list (string * Agg.t)) :
  forEachM aggregateStep m l = Some m' →
  Forall (fun c => hasPositions c = true) l.
Proof.
  revert m. induction l as [|c l IH]; intros m; [constructor|].
  rewrite forEachM_cons.
  destruct (aggregateStep m c) as [m1|] eqn:Hstep; simpl; [|done].
  intros Hrun. constructor; [|by eapply IH].
  unfold aggregateStep, connKey, posStr in Hstep. unfold hasPositions.
  by destruct (_sourcePos c), (_targetPos c).
Qed.

(** X19. The aggregation pass raises exactly when some record of its input
    lacks a position; run on the output of the resolver, as
    [preprocessData] does, it never raises. *)
Theorem aggregation_defined_iff :
  (∀ conns, is_Some (aggregateConnections conns) ↔
            Forall (fun c => hasPositions c = true) conns) ∧
  (∀ pointsJson connectionsJson,
     is_Some (preprocessData pointsJson connectionsJson)).
Proof.
  split.
  - intros conns. unfold aggregateConnections, aggregatedConnectionsMap. split.
    + destruct (forEachM aggregateStep [] conns) as [m|] eqn:Hm; simpl.
      * intros _. by eapply forEachM_defined.
      * by intros [? ?].
    + intros Hall. by destruct (forEachM_total conns [] Hall) as [m ->].
  - apply preprocessData_returns.
Qed.

End Engine.

(** * Concrete instances *)

(** A number printer for the examples: numerator, slash, denominator. *)
Definition ratio_toString (q : Qc) : string :=
  pretty (Qnum q) +:+ "/" +:+ pretty (Zpos (Qden q)).

Definition point (n : string) (ty : string) (lng lat : Z) : Feature :=
  mkFeature (mkProperties (Some n)) (mkGeometry ty [num lng; num lat]) None None.

Definition unnamed_point (lng lat : Z) : Feature :=
  mkFeature (mkProperties None) (mkGeometry "Point" [num lng; num lat]) None None.

Definition connection (ty src dst : string) : JsVal :=
  JObj [("Connection_type", JStr ty); ("from", JStr src); ("to", JStr dst)].

Definition example_points : Data :=
  FeatureCollection
    [ point "Ohio Pin" "Point" (-83) 40; point "FOB1" "Point" (-100) 35;
      point "East" "Point" (-75) 39; point "Area" "Polygon" 0 0;
      unnamed_point (-75) 39 ].

(** A record whose type field, and one whose only tag, is an object with a
    member named [toString]. *)
Definition opaque_type_record : JsVal :=
  JObj [("Connection_type", JObj [("toString", JNull)])].

Definition opaque_tag_record : JsVal :=
  JObj [("IER", JArr [JObj [("toString", JNull)]])].

(** C6 as stated fails: for this record the classifier returns no
    category, the call raises. *)
Lemma getConnType_raises :
  typeField opaque_type_record = Some (JObj [("toString", JNull)]) ∧
  getConnType_call ratio_toString trim toUpperCase opaque_type_record = None.
Proof. split; reflexivity. Qed.

Lemma getConnType_call_classifies_witness :
  let d := JObj [("properties", JObj [("connection_type", JStr " n_type ")])] in
  converts ratio_toString (default (JStr "") (typeField d)) " n_type " ∧
  ascii_text " n_type " = true ∧
  getConnType_call ratio_toString trim toUpperCase d = Some "N".
Proof.
  intros d.
  assert (Hc : converts ratio_toString (default (JStr "") (typeField d)) " n_type ")
    by constructor.
  assert (Ha : ascii_text " n_type " = true) by reflexivity.
  split; [exact Hc|]. split; [exact Ha|].
  exact (proj1 (proj2 (proj2
           (getConnType_call_classifies ratio_toString trim toUpperCase
              (fun s _ => eq_refl) (fun s _ => eq_refl) d)))
           " n_type " Hc Ha).
Defined.

(** C8 as stated fails: for this record the extractor raises. *)
Lemma getIERArray_raises :
  tagField opaque_tag_record = Some (JArr [JObj [("toString", JNull)]]) ∧
  getIERArray_call ratio_toString toUpperCase opaque_tag_record = None.
Proof. split; reflexivity. Qed.

Lemma getIERArray_call_extracts_witness :
  let d := JObj [("IER", JArr [JStr "loc"; JStr "sit"])] in
  tagField d = Some (JArr (map JStr ["loc"; "sit"])) ∧
  Forall (fun t => ascii_text t = true) ["loc"; "sit"] ∧
  getIERArray_call ratio_toString toUpperCase d = Some ["LOC"; "SIT"].
Proof.
  intros d.
  assert (Hfield : tagField d = Some (JArr (map JStr ["loc"; "sit"])))
    by reflexivity.
  assert (Ha : Forall (fun t => ascii_text t = true) ["loc"; "sit"])
    by (repeat constructor).
  split; [exact Hfield|]. split; [exact Ha|].
  exact (proj2 (proj2 (proj2
           (getIERArray_call_extracts ratio_toString toUpperCase
              (fun s _ => eq_refl) d) _ Hfield))
           ["loc"; "sit"] eq_refl Ha).
Defined.

Lemma keepConnection_rule_witness :
  let pointMap := buildPointMap (allPointsOf example_points) in
  let c := connection "tr" "FOB1" "East" in
  getConnType ratio_toString c = "TR" ∧
  targetLongitude pointMap c = Some (num (-75)) ∧
  getProp c "from" = JStr "FOB1" ∧
  (keepConnection ratio_toString pointMap c = true ↔ (num (-75) < num (-90))%Qc).
Proof.
  intros pointMap c.
  assert (Htype : getConnType ratio_toString c = "TR") by reflexivity.
  assert (Hlng : targetLongitude pointMap c = Some (num (-75))) by reflexivity.
  assert (Hfrom : getProp c "from" = JStr "FOB1") by reflexivity.
  repeat split; try assumption;
    apply (keepConnection_rule ratio_toString pointMap c); assumption.
Defined.

Lemma processedConnections_resolved_witness :
  let r := resolveConnection ratio_toString
             (buildPointMap (allPointsOf example_points))
             (connection "N" "Ohio Pin" "East") in
  r ∈ preprocessConnections ratio_toString example_points
        [connection "N" "Area" "East"; connection "N" "Ohio Pin" "East"] ∧
  _sourcePos r = Some [num (-83); num 40] ∧
  _targetPos r = Some [num (-75); num 39].
Proof.
  intros r.
  assert (Hin : r ∈ preprocessConnections ratio_toString example_points
                  [connection "N" "Area" "East"; connection "N" "Ohio Pin" "East"]).
  { vm_compute. constructor. }
  split; [exact Hin|].
  destruct (proj1 (processedConnections_resolved ratio_toString example_points
              [connection "N" "Area" "East"; connection "N" "Ohio Pin" "East"])
              r Hin) as (p & q & _ & Hp & Hq & _ & _ & Hs & Ht).
  split; reflexivity.
Defined.

Lemma empty_reference_dropped_witness :
  getProp (connection "N" "" "East") "from" = JStr "" ∧
  resolveConnection ratio_toString (buildPointMap (allPointsOf example_points))
      (connection "N" "Ohio Pin" "East")
    ∈ preprocessConnections ratio_toString example_points
        [connection "N" "" "East"; connection "N" "Ohio Pin" "East"] ∧
  raw (resolveConnection ratio_toString
         (buildPointMap (allPointsOf example_points))
         (connection "N" "Ohio Pin" "East")) ≠ connection "N" "" "East".
Proof.
  assert (Hin : resolveConnection ratio_toString
                  (buildPointMap (allPointsOf example_points))
                  (connection "N" "Ohio Pin" "East")
                ∈ preprocessConnections ratio_toString example_points
                    [connection "N" "" "East"; connection "N" "Ohio Pin" "East"]).
  { vm_compute. constructor. }
  split; [reflexivity|]. split; [exact Hin|].
  apply (proj2 (proj2 (empty_reference_dropped ratio_toString example_points))
           [connection "N" "" "East"; connection "N" "Ohio Pin" "East"]
           (connection "N" "" "East")); [left; reflexivity|exact Hin].
Defined.

(** Tag filtering off, then on: a connection without tags. *)
Definition state_no_tag_filter : FilterState :=
  mkFilterState ["N"] [BLUE_GROUP] [] false false false false false.

Definition state_tag_filter : FilterState :=
  mkFilterState ["N"] [BLUE_GROUP] ["LOCATION"] false false false false false.

Definition state_two_tags : FilterState :=
  mkFilterState ["N"; "C"] [BLUE_GROUP; RED_GROUP] ["LOCATION"; "SIT"]
                false false false false false.

Definition untagged_connection : Connection :=
  mkConnection (connection "N" "a" "b") None None
               (Some [num 0; num 0]) (Some [num 1; num 1])
               "N" [] BLUE_GROUP BLUE_GROUP false false.

Definition tagged_connection : Connection :=
  mkConnection (connection "N" "a" "b") None None
               (Some [num 0; num 0]) (Some [num 1; num 1])
               "N" ["LOCATION"] BLUE_GROUP BLUE_GROUP false false.

Lemma extends_example (fs fs' : FilterState) :
  bool_decide (activeTypes fs ⊆ activeTypes fs') = true →
  bool_decide (activePointTypes fs ⊆ activePointTypes fs') = true →
  bool_decide (activeIerTypes fs ⊆ activeIerTypes fs') = true →
  hideHubConnections fs = hideHubConnections fs' →
  hideHub2Connections fs = hideHub2Connections fs' →
  extends fs fs'.
Proof.
  intros H1%bool_decide_eq_true H2%bool_decide_eq_true H3%bool_decide_eq_true.
  by repeat split.
Qed.

(** C2 as stated fails: enabling a tag where none was enabled hides the
    connections that do not carry it. *)
Lemma visibility_not_monotone_in_tags :
  extends state_no_tag_filter state_tag_filter ∧
  getConnectionFilterValue state_no_tag_filter untagged_connection = 1%nat ∧
  getConnectionFilterValue state_tag_filter untagged_connection = 0%nat.
Proof.
  split; [by apply extends_example|]. split; reflexivity.
Qed.

Lemma getConnectionFilterValue_mono_witness :
  extends state_tag_filter state_two_tags ∧
  (activeIerTypes state_tag_filter = [] → activeIerTypes state_two_tags = []) ∧
  getConnectionFilterValue state_tag_filter tagged_connection = 1%nat ∧
  getConnectionFilterValue state_two_tags tagged_connection = 1%nat.
Proof.
  assert (Hext : extends state_tag_filter state_two_tags)
    by (by apply extends_example).
  assert (Hempty : activeIerTypes state_tag_filter = [] →
                   activeIerTypes state_two_tags = []) by (simpl; discriminate).
  assert (Hvis : getConnectionFilterValue state_tag_filter tagged_connection = 1%nat)
    by reflexivity.
  split; [exact Hext|]. split; [exact Hempty|]. split; [exact Hvis|].
  exact (getConnectionFilterValue_mono _ _ _ Hext Hempty Hvis).
Defined.

Definition state_reordered : FilterState :=
  mkFilterState ["C"; "N"] [RED_GROUP; BLUE_GROUP] ["SIT"; "LOCATION"]
                false false false false false.

Lemma reachable_state_no_tag_filter : reachable state_no_tag_filter.
Proof.
  exists [ConnChange "N" true; PinChange BLUE_GROUP true].
  split; [|reflexivity].
  constructor; [simpl; unfold connItems; set_solver|]. by repeat constructor.
Qed.

Lemma reachable_state_tag_filter : reachable state_tag_filter.
Proof.
  exists [ConnChange "N" true; PinChange BLUE_GROUP true; IerChange "LOCATION" true].
  split; [|reflexivity].
  constructor; [simpl; unfold connItems; set_solver|].
  constructor; [done|].
  constructor; [simpl; unfold ierItems; set_solver|]. constructor.
Qed.

Lemma filterKey_tracks_state_witness :
  (same_up_to_order state_two_tags state_reordered ∧
   filterKey state_two_tags = filterKey state_reordered) ∧
  (reachable state_no_tag_filter ∧ reachable state_tag_filter ∧
   single_change state_no_tag_filter state_tag_filter ∧
   filterKey state_no_tag_filter ≠ filterKey state_tag_filter).
Proof.
  assert (Hsame : same_up_to_order state_two_tags state_reordered).
  { unfold same_up_to_order; simpl. repeat split; try reflexivity; apply perm_swap. }
  assert (Hchange : single_change state_no_tag_filter state_tag_filter).
  { apply change_activeIerTypes. intros H.
    assert (Hin : "LOCATION" ∈ @nil string) by (apply H; repeat constructor).
    by apply elem_of_nil in Hin. }
  split.
  - split; [exact Hsame|].
    exact (proj1 filterKey_tracks_state _ _ Hsame).
  - split; [exact reachable_state_no_tag_filter|].
    split; [exact reachable_state_tag_filter|]. split; [exact Hchange|].
    exact (proj2 filterKey_tracks_state _ _
             reachable_state_no_tag_filter reachable_state_tag_filter Hchange).
Defined.

(** Two connections between the same two coordinates, recorded in opposite
    directions, and a variant of the second with other endpoint groups. *)
Definition conn_ab : Connection :=
  mkConnection (connection "N" "a" "b") None None
               (Some [num 1; num 2]) (Some [num 3; num 4])
               "N" ["LOCATION"] BLUE_GROUP RED_GROUP false false.

Definition conn_ba : Connection :=
  mkConnection (connection "C" "b" "a") None None
               (Some [num 3; num 4]) (Some [num 1; num 2])
               "C" ["SIT"] RED_GROUP BLUE_GROUP false true.

Definition conn_ba_regrouped : Connection :=
  mkConnection (connection "C" "b2" "a2") None None
               (Some [num 3; num 4]) (Some [num 1; num 2])
               "C" ["SIT"] GREEN_GROUP PINK_GROUP false true.

Lemma aggregate_merges_directions_witness :
  Forall (fun c => hasPositions c = true) [conn_ab; conn_ba] ∧
  same_unordered_pair conn_ab conn_ba ∧
  ∃ m key agg,
    aggregatedConnectionsMap ratio_toString [conn_ab; conn_ba] = Some m ∧
    List.filter (fun e => String.eqb (fst e) key) m = [(key, agg)] ∧
    (2 ≤ Agg._count agg)%nat.
Proof.
  assert (Hall : Forall (fun c => hasPositions c = true) [conn_ab; conn_ba])
    by (repeat constructor).
  assert (Hpair : same_unordered_pair conn_ab conn_ba) by (right; split; reflexivity).
  split; [exact Hall|]. split; [exact Hpair|].
  destruct (aggregate_merges_directions ratio_toString [conn_ab; conn_ba]
              0 1 conn_ab conn_ba Hall eq_refl eq_refl (Nat.neq_0_succ 0) Hpair)
    as (m & key & agg & Hm & _ & _ & _ & _ & Hone & _ & Hcount).
  exists m, key, agg. split; [exact Hm|]. split; [exact Hone|exact Hcount].
Defined.

Lemma aggregate_endpoints_from_first_witness :
  agree_except_later ratio_toString [] [conn_ab; conn_ba] [conn_ab; conn_ba_regrouped] ∧
  ∃ aggs1 aggs2,
    aggregateConnections ratio_toString [conn_ab; conn_ba] = Some aggs1 ∧
    aggregateConnections ratio_toString [conn_ab; conn_ba_regrouped] = Some aggs2 ∧
    ∀ fs, map (getAggregatedFilterValue fs) aggs1 =
          map (getAggregatedFilterValue fs) aggs2.
Proof.
  assert (Hagree : agree_except_later ratio_toString []
                     [conn_ab; conn_ba] [conn_ab; conn_ba_regrouped]).
  { simpl. split; [by repeat split|]. split; [intros _; by split|].
    split; [by repeat split|]. split; [|done].
    intros Hnot. exfalso. apply Hnot. vm_compute. constructor. }
  assert (Hrun : ∃ aggs1,
             aggregateConnections ratio_toString [conn_ab; conn_ba] = Some aggs1)
    by (eexists; reflexivity).
  destruct Hrun as [aggs1 Hrun].
  destruct (proj2 (aggregate_endpoints_from_first ratio_toString)
              _ _ aggs1 Hagree Hrun) as (aggs2 & Hrun2 & Hvis).
  split; [exact Hagree|]. exists aggs1, aggs2. auto.
Defined.

(** Stand-ins for the icon text and the trigonometric functions. *)
Definition no_icon (colors : list RGBA) : string := "".
Definition zero_fn (x : float) : float := 0%float.

Definition colocated_points : list Feature :=
  [ point "A" "Point" 1 2; point "B" "Point" 1 2; point "C" "Point" 3 4 ].

Definition colocated_group : PinGroup :=
  assignLabelOffsets zero_fn zero_fn
    (makePinGroup no_icon
       [attachPinType (point "A" "Point" 1 2); attachPinType (point "B" "Point" 1 2)]).

(** Seven points at one location. *)
Definition seven_points : list Feature :=
  [ point "P0" "Point" 5 6; point "P1" "Point" 5 6; point "P2" "Point" 5 6;
    point "P3" "Point" 5 6; point "P4" "Point" 5 6; point "P5" "Point" 5 6;
    point "P6" "Point" 5 6 ].

(** C7 as stated fails in the arithmetic of the source: the seven points
    form one group of seven, and the gap between its first two mid-angles
    is neither 360/7 degrees nor the gap between the second and the
    third. *)
Lemma seven_slices_not_evenly_spaced :
  (∃ g, overlappingPins ratio_toString no_icon zero_fn zero_fn seven_points = [g] ∧
        count g = 7%nat) ∧
  ∃ a0 a1 a2,
    float_value (midAngle 7 0) = Some a0 ∧
    float_value (midAngle 7 1) = Some a1 ∧
    float_value (midAngle 7 2) = Some a2 ∧
    ¬ (a1 - a0 == 360 # 7)%Q ∧ ¬ (a1 - a0 == a2 - a1)%Q.
Proof.
  split; [eexists; split; [vm_compute; reflexivity|reflexivity]|].
  eexists _, _, _.
  split; [vm_compute; reflexivity|]. split; [vm_compute; reflexivity|].
  split; [vm_compute; reflexivity|].
  split; intros H; apply Qeq_bool_iff in H; vm_compute in H; discriminate H.
Qed.

Lemma colocated_label_offsets_witness :
  (point "A" "Point" 1 2 ∈ colocated_points ∧
   point "B" "Point" 1 2 ∈ colocated_points ∧
   coordinates (geometry (point "A" "Point" 1 2)) =
     coordinates (geometry (point "B" "Point" 1 2)) ∧
   ∃ g, g ∈ overlappingPins ratio_toString no_icon zero_fn zero_fn
              colocated_points ∧
        base (point "A" "Point" 1 2) ∈ map base (originalPins g) ∧
        base (point "B" "Point" 1 2) ∈ map base (originalPins g)) ∧
  (colocated_group ∈ overlappingPins ratio_toString no_icon zero_fn zero_fn
                       colocated_points ∧
   count colocated_group = 2%nat ∧
   ∀ i p, originalPins colocated_group !! i = Some p →
     _labelOffset p =
       Some ((45 * zero_fn ((-90 + float_of_nat i * (360 / float_of_nat 2)
                             + (360 / float_of_nat 2) / 2)
                            * (Math_PI / 180)))%float,
             (45 * zero_fn ((-90 + float_of_nat i * (360 / float_of_nat 2)
                             + (360 / float_of_nat 2) / 2)
                            * (Math_PI / 180)))%float)) ∧
  ((2 ≤ 7 ≤ 100)%nat ∧ (1 < 7)%nat ∧ spacing_within (1 # 10 ^ 13) 7 0 = true).
Proof.
  assert (HA : point "A" "Point" 1 2 ∈ colocated_points) by (repeat constructor).
  assert (HB : point "B" "Point" 1 2 ∈ colocated_points) by (repeat constructor).
  assert (Hg : colocated_group ∈ overlappingPins ratio_toString no_icon zero_fn
                                   zero_fn colocated_points)
    by (vm_compute; constructor).
  assert (H7 : (2 ≤ 7 ≤ 100)%nat) by lia.
  assert (H1 : (1 < 7)%nat) by lia.
  pose proof (colocated_label_offsets ratio_toString no_icon zero_fn zero_fn
                colocated_points) as (Hsame & Hgroups & Hspacing & _).
  split; [|split].
  - split; [exact HA|]. split; [exact HB|]. split; [reflexivity|].
    exact (Hsame _ _ HA HB eq_refl).
  - split; [exact Hg|]. split; [reflexivity|].
    destruct (Hgroups colocated_group Hg) as (_ & _ & Hoffsets & _).
    apply Hoffsets. vm_compute. constructor.
  - split; [exact H7|]. split; [exact H1|]. exact (Hspacing 7%nat 0%nat H7 H1).
Defined.

(** ** Instances for the further properties *)

Lemma hub2_connections_suppressed_witness :
  let r := resolveConnection ratio_toString
             (buildPointMap (allPointsOf example_points))
             (connection "N" "East" "HUB2") in
  r ∈ preprocessConnections ratio_toString example_points
        [connection "N" "East" "HUB2"] ∧
  getProp (raw r) "to" = JStr "HUB2" ∧
  _isHub2 r = true ∧
  ∀ fs, hideHub2Connections fs = true → getConnectionFilterValue fs r = 0%nat.
Proof.
  intros r.
  assert (Hin : r ∈ preprocessConnections ratio_toString example_points
                  [connection "N" "East" "HUB2"]).
  { vm_compute. constructor. }
  assert (Hto : getProp (raw r) "to" = JStr "HUB2") by reflexivity.
  split; [exact Hin|]. split; [exact Hto|].
  exact (hub2_connections_suppressed ratio_toString example_points
           [connection "N" "East" "HUB2"] r Hin (or_intror Hto)).
Defined.

(** The aggregate of [conn_ab] and [conn_ba]. *)
Definition agg_ab : Agg.t :=
  accumulate conn_ba (accumulate conn_ab (newAccumulator conn_ab)).

Lemma aggregate_is_union_witness :
  aggregateConnections ratio_toString [conn_ab; conn_ba] = Some [agg_ab] ∧
  ∃ key, members ratio_toString key [conn_ab; conn_ba] ≠ [] ∧
    (∀ x, x ∈ Agg._connTypes agg_ab ↔
          ∃ c, c ∈ members ratio_toString key [conn_ab; conn_ba] ∧ _connType c = x) ∧
    Agg._count agg_ab = length (members ratio_toString key [conn_ab; conn_ba]).
Proof.
  assert (Hrun : aggregateConnections ratio_toString [conn_ab; conn_ba]
                 = Some [agg_ab]) by reflexivity.
  assert (Hin : agg_ab ∈ [agg_ab]) by constructor.
  split; [exact Hrun|].
  destruct (aggregate_is_union ratio_toString _ _ _ Hrun Hin)
    as (key & Hne & _ & _ & Hcat & _ & _ & _ & Hcount).
  exists key. split; [exact Hne|]. split; [exact Hcat|exact Hcount].
Defined.

Lemma aggregate_counts_conserved_witness :
  aggregateConnections ratio_toString [conn_ab; conn_ba] = Some [agg_ab] ∧
  sum_list_with Agg._count [agg_ab] = 2%nat ∧ (length [agg_ab] ≤ 2)%nat.
Proof.
  assert (Hrun : aggregateConnections ratio_toString [conn_ab; conn_ba]
                 = Some [agg_ab]) by reflexivity.
  split; [exact Hrun|].
  exact (aggregate_counts_conserved ratio_toString _ _ Hrun).
Defined.

Lemma aggregate_width_positive_witness :
  aggregateConnections ratio_toString [conn_ab; conn_ba] = Some [agg_ab] ∧
  (1 ≤ length (Agg._connTypes agg_ab) ≤ Agg._count agg_ab)%nat ∧
  (getAggregatedWidth agg_ab = 2%nat ↔ length (Agg._connTypes agg_ab) = 1%nat).
Proof.
  assert (Hrun : aggregateConnections ratio_toString [conn_ab; conn_ba]
                 = Some [agg_ab]) by reflexivity.
  assert (Hin : agg_ab ∈ [agg_ab]) by constructor.
  split; [exact Hrun|].
  destruct (aggregate_width_positive ratio_toString _ _ _ Hrun Hin)
    as (Hlen & _ & Hone).
  split; [exact Hlen|exact Hone].
Defined.

Lemma aggregate_tests_are_disjunctions_witness :
  aggregateConnections ratio_toString [conn_ab; conn_ba] = Some [agg_ab] ∧
  ∃ key,
    (existsb (fun type => set_has (activeTypes state_tag_filter) type)
       (Agg._connTypes agg_ab) = true
       ↔ ∃ c, c ∈ members ratio_toString key [conn_ab; conn_ba] ∧
              set_has (activeTypes state_tag_filter) (_connType c) = true).
Proof.
  assert (Hrun : aggregateConnections ratio_toString [conn_ab; conn_ba]
                 = Some [agg_ab]) by reflexivity.
  assert (Hin : agg_ab ∈ [agg_ab]) by constructor.
  split; [exact Hrun|].
  destruct (aggregate_tests_are_disjunctions ratio_toString _ _ _
              state_tag_filter Hrun Hin) as (key & Hcat & _).
  exists key. exact Hcat.
Defined.

(** A state in which group [BLUE GROUP] alone is active. *)
Definition state_blue_pins : FilterState :=
  mkFilterState [] [BLUE_GROUP] [] false false false false false.

Lemma pin_group_visible_iff_member_witness :
  colocated_group ∈ overlappingPins ratio_toString no_icon zero_fn zero_fn
                      colocated_points ∧
  (getPinGroupFilterValue state_blue_pins colocated_group = 1%nat ↔
   ∃ p, p ∈ originalPins colocated_group ∧
        getPinLabelFilterValue state_blue_pins p = 1%nat).
Proof.
  assert (Hg : colocated_group ∈ overlappingPins ratio_toString no_icon zero_fn
                                   zero_fn colocated_points)
    by (vm_compute; constructor).
  split; [exact Hg|].
  exact (pin_group_visible_iff_member ratio_toString no_icon zero_fn zero_fn colocated_points colocated_group state_blue_pins Hg).
Defined.

Lemma groups_partition_by_location_witness :
  colocated_group ∈ overlappingPins ratio_toString no_icon zero_fn zero_fn
                      colocated_points ∧
  ∀ p q, p ∈ originalPins colocated_group → q ∈ originalPins colocated_group →
         locationKey ratio_toString p = locationKey ratio_toString q.
Proof.
  assert (Hg : colocated_group ∈ overlappingPins ratio_toString no_icon zero_fn
                                   zero_fn colocated_points)
    by (vm_compute; constructor).
  split; [exact Hg|]. intros p q.
  exact (proj1 (groups_partition_by_location ratio_toString no_icon zero_fn
                  zero_fn colocated_points) colocated_group p q Hg).
Defined.

(** A run of the controls: two categories checked, one unchecked again, a
    group checked and hub suppression switched on. *)
Definition example_events : list Event :=
  [ ConnChange "N" true; ConnChange "RT" true; ConnChange "N" false;
    PinChange RED_GROUP true; Hub1Change true ].

Lemma reachable_legend_state_witness :
  reachable (foldl handle initialState example_events) ∧
  legend_state (foldl handle initialState example_events) ∧
  plain_keys (foldl handle initialState example_events).
Proof.
  assert (Hreach : reachable (foldl handle initialState example_events)).
  { exists example_events. split; [|reflexivity].
    repeat constructor; simpl; unfold connItems; set_solver. }
  split; [exact Hreach|].
  exact (reachable_legend_state _ Hreach).
Defined.

Lemma initialState_legend_state : legend_state initialState.
Proof.
  unfold legend_state, initialState; simpl.
  split; [apply NoDup_nil_2|]. split; [apply NoDup_nil_2|].
  split; [apply NoDup_nil_2|]. split; by intros x ?%elem_of_nil.
Qed.

Lemma all_none_buttons_witness :
  legend_state initialState ∧
  activeTypes (handle initialState AllConnClick) = connItems ∧
  activeIerTypes (handle initialState AllIerClick) = ierItems ∧
  activePointTypes (handle initialState AllPinsClick) = ALL_POINT_TYPES.
Proof.
  split; [exact initialState_legend_state|].
  destruct (all_none_buttons initialState initialState_legend_state)
    as (_ & Hconn & _ & Hier & _ & Hpin).
  split; [|split].
  - apply Hconn. exists "N". split; [by left|]. apply not_elem_of_nil.
  - apply Hier. exists "SIT". split; [unfold ierItems; set_solver|].
    apply not_elem_of_nil.
  - apply Hpin. exists BLUE_GROUP. apply not_elem_of_nil.
Defined.

(** Two states the controls can produce, with the same two categories
    checked in either order. *)
Definition state_N_then_C : FilterState :=
  mkFilterState ["N"; "C"] [RED_GROUP] ["SIT"] true false false false false.

Definition state_C_then_N : FilterState :=
  mkFilterState ["C"; "N"] [RED_GROUP] ["SIT"] true false false false false.

Lemma filterKey_injective_on_legend_states_witness :
  legend_state state_N_then_C ∧ legend_state state_C_then_N ∧
  filterKey state_N_then_C = filterKey state_C_then_N ∧
  same_up_to_order state_N_then_C state_C_then_N.
Proof.
  assert (H1 : legend_state state_N_then_C).
  { unfold legend_state, state_N_then_C, connItems, ierItems; simpl.
    split; [|split; [|split; [|split]]]; try (apply NoDup_ListNoDup; repeat constructor; set_solver); set_solver. }
  assert (H2 : legend_state state_C_then_N).
  { unfold legend_state, state_C_then_N, connItems, ierItems; simpl.
    split; [|split; [|split; [|split]]]; try (apply NoDup_ListNoDup; repeat constructor; set_solver); set_solver. }
  assert (Hkey : filterKey state_N_then_C = filterKey state_C_then_N)
    by (vm_compute; reflexivity).
  split; [exact H1|]. split; [exact H2|]. split; [exact Hkey|].
  exact (filterKey_injective_on_legend_states _ _ H1 H2 Hkey).
Defined.

(** A state with a category and a tag active, but no group. *)
Definition state_no_group : FilterState :=
  mkFilterState ["N"] [] ["LOCATION"] false false false false false.

Lemma nothing_visible_without_groups_witness :
  activePointTypes state_no_group = [] ∧
  getConnectionFilterValue state_no_group tagged_connection = 0%nat.
Proof.
  assert (Hnone : activePointTypes state_no_group = []) by reflexivity.
  split; [exact Hnone|].
  exact (proj1 (proj1 (nothing_visible_without_groups state_no_group) Hnone)
           tagged_connection).
Defined.

Lemma reversed_connections_resolve_alike_witness :
  let pointMap := buildPointMap (allPointsOf example_points) in
  let r1 := resolveConnection ratio_toString pointMap (connection "N" "FOB1" "East") in
  let r2 := resolveConnection ratio_toString pointMap (connection "C" "East" "FOB1") in
  hasPositions r1 = true ∧ _isHub1 r1 = _isHub1 r2 ∧
  connKey ratio_toString r1 = connKey ratio_toString r2.
Proof.
  intros pointMap r1 r2.
  assert (Hpos : hasPositions r1 = true) by (vm_compute; reflexivity).
  destruct (reversed_connections_resolve_alike ratio_toString pointMap
              (connection "N" "FOB1" "East") (connection "C" "East" "FOB1")
              eq_refl eq_refl) as (_ & _ & _ & _ & Hhub & _ & _ & Hkey).
  split; [exact Hpos|]. split; [exact Hhub|exact (Hkey Hpos)].
Defined.

Lemma aggregate_colour_follows_width_witness :
  aggregateConnections ratio_toString [conn_ab; conn_ba] = Some [agg_ab] ∧
  (getAggregatedColor agg_ab = (255, 255, 0, 170) ↔
   getAggregatedWidth agg_ab = 9%nat).
Proof.
  assert (Hrun : aggregateConnections ratio_toString [conn_ab; conn_ba]
                 = Some [agg_ab]) by reflexivity.
  assert (Hin : agg_ab ∈ [agg_ab]) by constructor.
  split; [exact Hrun|].
  exact (proj1 (proj2 (aggregate_colour_follows_width ratio_toString _ _ _
                         Hrun Hin))).
Defined.
